(** * The chat front end of the IPC patent assistant (streamlit/app.py)

    A shallow embedding of the event adapter [stream_agent_response], of the
    session store kept in [st.session_state], of the transcript replay
    [display_chat_messages] and of the response cycle [process_user_input],
    followed by the properties the specification states about them.

    Python values are embedded as follows.
    - A [str] is the [string] of the bytes of its UTF-8 encoding, as the
      source file holds its literals; a character is a byte that starts one
      together with the bytes that continue it, and [len] and slices count
      characters.
    - A dict with a fixed set of keys is a record; a key the code reads with
      [d[k]] is a field, a key it reads with [d.get(k, default)] is an
      [option] field.
    - A dict iterated with [.items()] is the list of its items in insertion
      order.
    - An exception is the text [str(e)] the handlers print. *)

From Stdlib Require Import NArith String Ascii DecimalString.
From stdpp Require Import base option list strings.

Local Open Scope string_scope.
Local Open Scope list_scope.

(** ** Python helpers *)

Module Py.

(** [if s:] on a [str]. *)
Definition truthy (s : string) : bool :=
  match s with
  | EmptyString => false
  | String _ _ => true
  end.

(** [str(s)] on a [str]. *)
Definition str (s : string) : string := s.

(** A byte that continues a character in UTF-8: its two highest bits are
    one and zero. *)
Definition continues (c : ascii) : bool :=
  match c with
  | Ascii _ _ _ _ _ _ false true => true
  | _ => false
  end.

(** [len(s)] on a [str]: the number of its characters. *)
Fixpoint len (s : string) : nat :=
  match s with
  | EmptyString => 0
  | String c rest => if continues c then len rest else S (len rest)
  end.

(** [s[:n]] on a [str]: its first [n] characters, all of it when it has
    fewer. *)
Fixpoint prefix (n : nat) (s : string) : string :=
  match s with
  | EmptyString => EmptyString
  | String c rest =>
      if continues c then String c (prefix n rest)
      else match n with
           | 0 => EmptyString
           | S n' => String c (prefix n' rest)
           end
  end.

(** [f"{n}"] on a non-negative [int]. *)
Definition str_of_int (n : nat) : string :=
  NilZero.string_of_uint (Nat.to_uint n).

(** [str(e)] of the [IndexError] raised by [l[-1]] on an empty list. *)
Definition IndexError : string := "list index out of range".

End Py.

(** ** What the agent runtime hands over

    The messages of the agent framework: the code reads [content] on every
    last message and [tool_calls] on the last message of an "agent" update;
    of a requested invocation it reads ['name'] only.  The content is the
    text the chat model and the tools return; the payload of a node is a
    dict. *)

Module LangChain.

Record ToolCall := { name : string; args : string }.

Record Message := { content : string; tool_calls : list ToolCall }.

(** The payload of one node: a dict that may hold the key "messages". *)
Record Update := { messages : option (list Message) }.

(** One raw event: [event.items()], node names with their payloads. *)
Definition Event := list (string * Update).

(** How iterating the stream ends: [StopIteration], or an exception of the
    kind [except Exception] catches, given by its text. *)
Inductive Ending := StopIteration | Raise (e : string).

(** The iterator returned by [agent_executor.stream(...)], once run. *)
Record Stream := { events : list Event; ending : Ending }.

(** The request: the turns sent to the agent. *)
Inductive Turn :=
| SystemMessage (content : string) (id : string)
| HumanMessage (content : string).

End LangChain.

(** [agent_executor.stream({"messages": messages}, config=config)], where
    [config] holds the thread identifier only. *)
Definition agent_executor := list LangChain.Turn → string → LangChain.Stream.

(** ** Messages of the session and adapted events *)

(** An entry of [st.session_state.messages]. *)
Record message := {
  role : string;
  content : string;
  tool_name : option string
}.

(** The dicts the generator yields, by their "type". *)
Inductive adapted_event :=
| tool_call (tool_name : string)
| answer (content : string)
| tool_result (length : nat)
| final (content : string) (tool_calls : list message)
| error (message : string).

(** The dict built at a tool call, in the adapter and again in the cycle. *)
Definition tool_notice (name : string) : message :=
  {| role := "tool";
     content := "도구 실행: " +:+ name;
     tool_name := Some name |}.

(** ** stream_agent_response *)

(** The two locals of the generator. *)
Record locals := {
  final_answer : string;
  tool_calls_info : list message
}.

(** What a piece of the [try] body did: the locals it leaves, the events it
    yielded, and the exception that ended it, if any. *)
Definition progress : Type := locals * list adapted_event * option string.

(** A [for] loop whose body may raise: the loop ends at the first exception,
    keeping what was yielded until then. *)
Fixpoint for_each {A} (body : locals → A → progress) (st : locals) (xs : list A)
  : progress :=
  match xs with
  | [] => (st, [], None)
  | x :: rest =>
      match body st x with
      | (st', out, Some e) => (st', out, Some e)
      | (st', out, None) =>
          let '(st'', out', r) := for_each body st' rest in
          (st'', out ++ out', r)
      end
  end.

(** The body of [for node_name, value in event.items()]. *)
Definition visit (st : locals) (item : string * LangChain.Update) : progress :=
  let '(node_name, value) := item in
  match LangChain.messages value with
  | None => (st, [], None)
  | Some messages =>
      match last messages with
      | None => (st, [], Some Py.IndexError)
      | Some last_message =>
          if decide (node_name = "agent") then
            match LangChain.tool_calls last_message with
            | call :: _ =>
                let tool_name := LangChain.name call in
                ({| final_answer := final_answer st;
                    tool_calls_info := tool_calls_info st ++ [tool_notice tool_name] |},
                 [tool_call tool_name], None)
            | [] =>
                if Py.truthy (LangChain.content last_message) then
                  ({| final_answer := LangChain.content last_message;
                      tool_calls_info := tool_calls_info st |},
                   [answer (LangChain.content last_message)], None)
                else (st, [], None)
            end
          else if decide (node_name = "tools") then
            let content_length := Py.len (Py.str (LangChain.content last_message)) in
            (st, [tool_result content_length], None)
          else (st, [], None)
      end
  end.

(** The body of [for event in agent_executor.stream(...)]. *)
Definition on_event (st : locals) (event : LangChain.Event) : progress :=
  for_each visit st event.

(** The locals when the [try] block is entered. *)
Definition fresh_locals : locals :=
  {| final_answer := EmptyString; tool_calls_info := [] |}.

(** The [try] block: the loop over the stream, then the closing [final]. *)
Definition try_block (stream : LangChain.Stream)
  : list adapted_event * option string :=
  match for_each on_event fresh_locals (LangChain.events stream) with
  | (_, out, Some e) => (out, Some e)
  | (st, out, None) =>
      match LangChain.ending stream with
      | LangChain.Raise e => (out, Some e)
      | LangChain.StopIteration =>
          if Py.truthy (final_answer st) then
            (out ++ [final (final_answer st) (tool_calls_info st)], None)
          else (out, None)
      end
  end.

(** A generator, once run to its end: what it yielded, and the exception
    that escaped from it, if any. *)
Record generator := {
  yielded : list adapted_event;
  raised : option string
}.

(** The double quote, which the persona text uses around its examples. *)
Definition dq : string := String (ascii_of_nat 34) EmptyString.

(** The persona text sent as the first turn of every request. *)
Definition SYSTEM_PROMPT : string :=
"
당신은 20년 경력의 'IPC(국제특허분류) 전문 베테랑 변리사'입니다. 
당신의 목표는 사용자의 발명 아이디어나 기술 내용을 분석하여, 특허 서류 작성을 보조하거나 사용자의 아이디어에 관련된 IPC코드등을 제공하고 필요하다면 이에 대한 설명도 제공해야합니다.
또한, 이미 시중에 공개된 유사한 특허에 대한 정보를 검색하고 이를 통해 유사한 특허의 정보를 제공하거나 사용자의 아이디어와의 차별점을 분석해서 제공하여야 합니다.
사용자의 목적에 관한 답변을 해주되 최신 특허정보나 IPC코드에 관한 정보에 관해서는 주어진 도구를 이용하여 검색하여 정보를 얻고 이를 바탕으로 사용자에게 최적화된 답변을 제공하세요.

다음 지침을 반드시 따르십시오:
1. [전문성] 단순히 검색 결과 리스트만 나열하지 마십시오. 각 코드가 왜 사용자의 기술과 관련이 있는지 전문가적 견해(Insight)를 덧붙여 설명하세요.
2. [구조적 설명] IPC 코드를 설명할 때는 가능하다면 섹션(Section) -> 클래스(Class) -> 그룹(Group)의 계층 구조를 이해하기 쉽게 풀어서 설명하세요.
3. [친절하되 명확함] 사용자가 비전문가일 수 있음을 고려하여 전문 용어는 쉽게 풀어서 설명하되, 내용은 정확해야 합니다.
4. [도구 활용] 사용자의 질문이 모호하면, 먼저 아이디어를 구체화하기 위한 질문을 하거나, 주어진 도구를 활용하여 최대한 근접한 기술 분류를 탐색하십시오.
5. [답변 스타일] 문장은 정중하고 논리적인 '변리사' 톤을 유지하세요. (예: " +:+ dq +:+
"~것으로 판단됩니다." +:+ dq +:+
", " +:+ dq +:+
"~분류가 적합해 보입니다." +:+ dq +:+
")
6. [추가 정보 요구] 만약 사용자가 제공한 정보중에서 부족하거나 보충해야하는 부분이 있다면 정보를 요구하세요.(예: " +:+ dq +:+
"~ 것에 관한 부분이 모호합니다. ~를 의미한 건가요?" +:+ dq +:+
"," +:+ dq +:+
"~에 관한 부분의 정보가 부족합니다. ~점을 더 이야기해주세요." +:+ dq +:+
")
".

Definition stream_agent_response
    (agent : agent_executor) (user_input thread_id : string) : generator :=
  let config := thread_id in
  let messages :=
    [LangChain.SystemMessage SYSTEM_PROMPT "system_persona";
     LangChain.HumanMessage user_input] in
  match try_block (agent messages config) with
  | (out, None) => {| yielded := out; raised := None |}
  | (out, Some e) => {| yielded := out ++ [error e]; raised := None |}
  end.

(** ** Session identifiers: [str(uuid.uuid4())]

    Python's [uuid] module: [uuid4()] is [UUID(bytes=os.urandom(16),
    version=4)], which sets the variant and version bits of the integer of
    the sixteen bytes; [str] prints the integer as 32 hexadecimal digits in
    groups of 8-4-4-4-12.  The random bytes are an argument here. *)

Module UUID.

Local Open Scope N_scope.

(** [int.from_bytes(bytes)] of sixteen bytes, then the bit surgery of
    [UUID.__init__] for [version=4]. *)
Definition uuid4 (urandom : N) : N :=
  let int := urandom mod 2 ^ 128 in
  let int := N.ldiff int (N.shiftl 0xc000 48) in
  let int := N.lor int (N.shiftl 0x8000 48) in
  let int := N.ldiff int (N.shiftl 0xf000 64) in
  N.lor int (N.shiftl 4 76).

Definition hexdigit (d : N) : ascii :=
  match d with
  | 0 => "0" | 1 => "1" | 2 => "2" | 3 => "3"
  | 4 => "4" | 5 => "5" | 6 => "6" | 7 => "7"
  | 8 => "8" | 9 => "9" | 10 => "a" | 11 => "b"
  | 12 => "c" | 13 => "d" | 14 => "e" | _ => "f"
  end%char.

(** ['%0<width>x' % n] for [n] below [16 ^ width], as a list of characters. *)
Fixpoint hex (width : nat) (n : N) (acc : list ascii) : list ascii :=
  match width with
  | O => acc
  | S w => hex w (n / 16) (hexdigit (n mod 16) :: acc)
  end.

(** [UUID.__str__]. *)
Definition str (int : N) : string :=
  let hex := hex 32 int [] in
  let dash := "-"%char in
  string_of_list_ascii
    (take 8 hex ++ dash :: take 4 (drop 8 hex) ++ dash :: take 4 (drop 12 hex)
       ++ dash :: take 4 (drop 16 hex) ++ dash :: drop 20 hex)%list.

End UUID.

(** ** The session store: [st.session_state] *)

(** The store once [initialize_session_state] has run. *)
Record session_state := {
  messages : list message;
  thread_id : string
}.

(** The store as the run finds it: either key may be missing. *)
Record session_store := {
  stored_messages : option (list message);
  stored_thread_id : option string
}.

(** [urandom] is what [os.urandom(16)] returns if [uuid4] is called. *)
Definition initialize_session_state (store : session_store) (urandom : N)
  : session_state :=
  {| messages := default [] (stored_messages store);
     thread_id := default (UUID.str (UUID.uuid4 urandom)) (stored_thread_id store) |}.

(** [st.session_state.messages.append(m)]. *)
Definition append (ss : session_state) (m : message) : session_state :=
  {| messages := messages ss ++ [m]; thread_id := thread_id ss |}.

(** [main], under the button that starts a new conversation. *)
Definition start_new_conversation (ss : session_state) (urandom : N)
  : session_state :=
  {| messages := []; thread_id := UUID.str (UUID.uuid4 urandom) |}.

(** ** The page: what the toolkit is asked to show *)

Inductive widget :=
| chat_write (name text : string)
| chat_caption (name text : string)
| response_placeholder_write (text : string)
| tool_placeholder_caption (text : string)
| tool_placeholder_empty
| st_error (text : string).

(** The body of the loop of [display_chat_messages]. *)
Definition display_message (message : message) : list widget :=
  let role := role message in
  let content := content message in
  if decide (role = "user") then [chat_write "user" content]
  else if decide (role = "assistant") then [chat_write "assistant" content]
  else if decide (role = "tool") then
    let tool_name := default "도구" (tool_name message) in
    [chat_caption "assistant" (tool_name +:+ " 실행 중...")]
  else [].

Fixpoint display_chat_messages (messages : list message) : list widget :=
  match messages with
  | [] => []
  | message :: rest => display_message message ++ display_chat_messages rest
  end.

(** ** process_user_input *)

(** How the loop over the adapted events is left: by the [return] of the
    "error" branch, or at the end of the generator. *)
Inductive loop_exit :=
| returned (page : list widget)
| exhausted (final_answer : string) (tool_calls : list message) (page : list widget).

Fixpoint for_event (events : list adapted_event) (final_answer : string)
    (tool_calls : list message) (page : list widget) : loop_exit :=
  match events with
  | [] => exhausted final_answer tool_calls page
  | tool_call tool_name :: rest =>
      for_event rest final_answer (tool_calls ++ [tool_notice tool_name])
        (page ++ [tool_placeholder_caption (tool_name +:+ " 실행 중...")])
  | tool_result length :: rest =>
      for_event rest final_answer tool_calls
        (page ++ [tool_placeholder_caption
                    ("데이터 수신 완료 (" +:+ Py.str_of_int length +:+ " 글자)")])
  | answer content :: rest =>
      for_event rest content tool_calls (page ++ [response_placeholder_write content])
  | final content _ :: rest =>
      for_event rest content tool_calls
        (page ++ [response_placeholder_write content; tool_placeholder_empty])
  | error message :: _ =>
      returned (page ++ [st_error ("오류가 발생했습니다: " +:+ message)])
  end.

Definition process_user_input (user_input : string) (agent : agent_executor)
    (ss : session_state) : session_state * list widget :=
  let ss := append ss {| role := "user"; content := user_input; tool_name := None |} in
  let page := [chat_write "user" user_input] in
  let generator := stream_agent_response agent user_input (thread_id ss) in
  match for_event (yielded generator) EmptyString [] page with
  | returned page => (ss, page)
  | exhausted final_answer tool_calls page =>
      match raised generator with
      | Some e => (ss, page ++ [st_error ("오류가 발생했습니다: " +:+ e)])
      | None =>
          if Py.truthy final_answer then
            let ss :=
              append ss {| role := "assistant"; content := final_answer;
                           tool_name := None |} in
            (foldl append ss tool_calls, page)
          else (ss, page)
      end
  end.

(** * Vocabulary of the specification *)

(** ** Reading a raw stream *)

(** The stream a call of [stream_agent_response] obtains from the agent. *)
Definition stream_of (agent : agent_executor) (user_input thread_id : string)
  : LangChain.Stream :=
  agent [LangChain.SystemMessage SYSTEM_PROMPT "system_persona";
         LangChain.HumanMessage user_input] thread_id.

(** [event.get(node)]: the payload of a stage in a raw event. *)
Fixpoint get (node : string) (event : LangChain.Event) : option LangChain.Update :=
  match event with
  | [] => None
  | (k, v) :: rest => if decide (k = node) then Some v else get node rest
  end.

(** The most recent message a stage reports in a raw event. *)
Definition last_message (node : string) (event : LangChain.Event)
  : option LangChain.Message :=
  match get node event with
  | Some value => from_option last None (LangChain.messages value)
  | None => None
  end.

(** The first invocation a message requests, by name. *)
Definition first_invocation (m : LangChain.Message) : option string :=
  LangChain.name <$> head (LangChain.tool_calls m).

(** The text of a message that answers: text present, no invocation. *)
Definition answer_text (m : LangChain.Message) : option string :=
  match LangChain.tool_calls m with
  | [] => if Py.truthy (LangChain.content m) then Some (LangChain.content m) else None
  | _ :: _ => None
  end.

(** A reasoning-stage event whose last message requests invocations: the
    name of the first one. *)
Definition requested_tool (event : LangChain.Event) : option string :=
  from_option first_invocation None (last_message "agent" event).

(** A reasoning-stage event whose last message is an answer: its text. *)
Definition answered (event : LangChain.Event) : option string :=
  from_option answer_text None (last_message "agent" event).

(** The size of a text: the number of its characters, that is of the bytes
    of its encoding that start one, those below 128 or from 192 on. *)
Definition characters (s : string) : nat :=
  length (List.filter (λ c, (N_of_ascii c <? 128)%N || (192 <=? N_of_ascii c)%N)
            (list_ascii_of_string s)).

(** A tool-execution-stage event: the size of its stringified output. *)
Definition tool_output_length (event : LangChain.Event) : option nat :=
  (λ m, characters (Py.str (LangChain.content m))) <$> last_message "tools" event.

(** The input contract: a raw event is a dict, so its stage names are
    distinct, and a payload that has a message list has a non-empty one. *)
Definition nonempty_messages (item : string * LangChain.Update) : Prop :=
  LangChain.messages item.2 ≠ Some [].

Definition conforming (event : LangChain.Event) : Prop :=
  NoDup event.*1 ∧ Forall nonempty_messages event.

(** ** Reading the adapted events *)

Definition tool_call_names (events : list adapted_event) : list string :=
  omap (λ event, match event with tool_call name => Some name | _ => None end) events.

Definition answers (events : list adapted_event) : list string :=
  omap (λ event, match event with answer text => Some text | _ => None end) events.

Definition tool_result_lengths (events : list adapted_event) : list nat :=
  omap (λ event, match event with tool_result n => Some n | _ => None end) events.

(** The events of the body of a cycle: neither closing nor failing. *)
Definition plain (event : adapted_event) : Prop :=
  match event with
  | tool_call _ | answer _ | tool_result _ => True
  | final _ _ | error _ => False
  end.

(** The answer text a cycle last received, in an answer or a final event. *)
Definition received_answer (events : list adapted_event) : option string :=
  last (omap (λ event, match event with
                       | answer text | final text _ => Some text
                       | _ => None
                       end) events).

(** ** What a loop gets through

    The exception one item raises, the events it contributes, and the same
    for a whole raw event; [upto] is the part of a sequence a loop reads
    when it stops at the first exception. *)

Definition item_fault (item : string * LangChain.Update) : option string :=
  match LangChain.messages item.2 with
  | Some [] => Some Py.IndexError
  | _ => None
  end.

Definition item_yield (item : string * LangChain.Update) : list adapted_event :=
  match from_option last None (LangChain.messages item.2) with
  | None => []
  | Some m =>
      if decide (item.1 = "agent") then
        match first_invocation m with
        | Some name => [tool_call name]
        | None => option_list (answer <$> answer_text m)
        end
      else if decide (item.1 = "tools") then
        [tool_result (characters (Py.str (LangChain.content m)))]
      else []
  end.

Fixpoint upto {A} (fault : A → option string) (xs : list A) : list A :=
  match xs with
  | [] => []
  | x :: rest =>
      x :: match fault x with
           | Some _ => []
           | None => upto fault rest
           end
  end.

Definition first_fault {A} (fault : A → option string) (xs : list A)
  : option string :=
  head (omap fault xs).

Definition event_fault (event : LangChain.Event) : option string :=
  first_fault item_fault event.

Definition event_yield (event : LangChain.Event) : list adapted_event :=
  flat_map item_yield (upto item_fault event).

(** The exception that ends the consumption of a stream, if any. *)
Definition stream_fault (stream : LangChain.Stream) : option string :=
  match first_fault event_fault (LangChain.events stream) with
  | Some e => Some e
  | None =>
      match LangChain.ending stream with
      | LangChain.Raise e => Some e
      | LangChain.StopIteration => None
      end
  end.

(** The part of a stream the adapter reads. *)
Definition consumed (stream : LangChain.Stream) : LangChain.Stream :=
  {| LangChain.events := upto event_fault (LangChain.events stream);
     LangChain.ending :=
       match first_fault event_fault (LangChain.events stream) with
       | Some _ => LangChain.StopIteration
       | None => LangChain.ending stream
       end |}.


(** ** Tool output that the page never sees

    Two payloads of the tool-execution stage whose last messages hold texts
    of the same size; two streams that differ in such payloads only. *)

Definition same_size_output (v v' : LangChain.Update) : Prop :=
  match LangChain.messages v, LangChain.messages v' with
  | None, None => True
  | Some l, Some l' =>
      match last l, last l' with
      | None, None => True
      | Some m, Some m' =>
          characters (Py.str (LangChain.content m))
          = characters (Py.str (LangChain.content m'))
      | _, _ => False
      end
  | _, _ => False
  end.

Definition same_item (item item' : string * LangChain.Update) : Prop :=
  item.1 = item'.1
  ∧ if decide (item.1 = "tools") then same_size_output item.2 item'.2
    else item.2 = item'.2.

Definition same_up_to_tool_output (stream stream' : LangChain.Stream) : Prop :=
  Forall2 (Forall2 same_item) (LangChain.events stream) (LangChain.events stream')
  ∧ LangChain.ending stream = LangChain.ending stream'.

(** ** Messages of the transcript *)

(** The three role tags.  The content of a message is a field of the record:
    every message has one. *)
Definition recognized (m : message) : Prop :=
  role m ∈ ["user"; "assistant"; "tool"].

Definition user_message (text : string) : message :=
  {| role := "user"; content := text; tool_name := None |}.

Definition assistant_message (text : string) : message :=
  {| role := "assistant"; content := text; tool_name := None |}.

(** The running indicator of a tool notice: it names the tool. *)
Definition running_indicator (m : message) : string :=
  default "도구" (tool_name m) +:+ " 실행 중...".

(** The transcript entry of a message with a recognized role. *)
Definition rendered (m : message) : widget :=
  if decide (role m = "tool") then chat_caption "assistant" (running_indicator m)
  else chat_write (role m) (content m).

(** ** Reading an identifier back *)


(** The store of a session that has just begun. *)
Definition blank_store : session_store :=
  {| stored_messages := None; stored_thread_id := None |}.

(** ** The scenarios of the specification *)

(** An agent that answers every request with the given stream. *)
Definition scripted (stream : LangChain.Stream) : agent_executor :=
  λ _ _, stream.

Definition invocation (name : string) : LangChain.ToolCall :=
  {| LangChain.name := name; LangChain.args := EmptyString |}.

Definition reports (node : string) (m : LangChain.Message) : LangChain.Event :=
  [(node, {| LangChain.messages := Some [m] |})].

(** A reasoning turn that requests two tools at once. *)
Definition lookup_request : LangChain.Event :=
  reports "agent"
    {| LangChain.content := EmptyString;
       LangChain.tool_calls := [invocation "lookup_ipc_code"; invocation "search_patent"] |}.

Definition lookup_output : LangChain.Event :=
  reports "tools" {| LangChain.content := "xyz"; LangChain.tool_calls := [] |}.

Definition other_output : LangChain.Event :=
  reports "tools" {| LangChain.content := "특허법"; LangChain.tool_calls := [] |}.

Definition classification : LangChain.Event :=
  reports "agent"
    {| LangChain.content := "Classification G06F 17/00 applies.";
       LangChain.tool_calls := [] |}.

(** A payload whose message list is empty. *)
Definition hollow : LangChain.Event :=
  [("agent", {| LangChain.messages := Some [] |})].

Definition scenario : LangChain.Stream :=
  {| LangChain.events := [lookup_request; lookup_output; classification];
     LangChain.ending := LangChain.StopIteration |}.

Definition scenario' : LangChain.Stream :=
  {| LangChain.events := [lookup_request; other_output; classification];
     LangChain.ending := LangChain.StopIteration |}.

Definition broken_scenario : LangChain.Stream :=
  {| LangChain.events := [lookup_request];
     LangChain.ending := LangChain.Raise "connection reset" |}.

Definition session0 : session_state :=
  {| messages := [user_message "earlier question"; assistant_message "earlier answer"];
     thread_id := "00000000-0000-4000-8000-000000000000" |}.

(** The locals of the generator record what it yielded so far. *)
Definition tracks (st : locals) (p : progress) : Prop :=
  tool_calls_info p.1.1 = tool_calls_info st ++ (tool_notice <$> tool_call_names p.1.2)
  ∧ final_answer p.1.1 = default (final_answer st) (last (answers p.1.2))
  ∧ Forall plain p.1.2
  ∧ Forall (λ text, Py.truthy text = true) (answers p.1.2).

(** Closes the side conditions of the scenarios: distinct stage names,
    non-empty message lists, roles among the recognized ones. *)
Ltac solve_conforming :=
  repeat first
    [ apply Forall_nil_2
    | apply Forall_cons_2
    | apply NoDup_nil_2
    | apply NoDup_cons_2
    | split
    | done
    | apply not_elem_of_nil
    | apply list_elem_of_here
    | apply list_elem_of_further ].

(** * The rest of the script

    The module-level check of the API key, [main] and what one run of the
    script leaves behind.  A run reads the widgets (the button of the
    sidebar, the chat input) and the random bytes [uuid4] would draw. *)

(** What a whole run asks the toolkit to show: the page furniture, and the
    widgets of the chat. *)
Inductive element :=
| set_page_config (page_title page_icon layout : string)
| st_title (text : string)
| st_markdown (text : string)
| sidebar_header (text : string)
| sidebar_button (label : string)
| sidebar_divider
| sidebar_caption (text : string)
| chat_input_box (placeholder : string)
| shown (w : widget).

(** A run of [main]: the session it leaves, what it showed, and whether it
    ended in [st.rerun()], which halts the run. *)
Record run := {
  state : session_state;
  screen : list element;
  rerun : bool
}.

(** [pressed] is what [st.button] returns, [chat_input] what [st.chat_input]
    returns; [urandom] and [urandom'] are the random bytes of the two calls
    of [uuid4], where they happen. *)
Definition main (agent : agent_executor) (store : session_store)
    (pressed : bool) (chat_input : option string) (urandom urandom' : N) : run :=
  let top :=
    [set_page_config "IPC 전문 변리사 챗봇" "⚖️" "wide";
     st_title "⚖️ IPC 전문 변리사 챗봇";
     st_markdown "특허 분류 및 유사 특허 검색을 도와드립니다."] in
  let ss := initialize_session_state store urandom in
  let sidebar := [sidebar_header "설정"; sidebar_button "🔄 새 대화 시작"] in
  if pressed then
    {| state := start_new_conversation ss urandom';
       screen := top ++ sidebar;
       rerun := true |}
  else
    let sidebar :=
      sidebar ++
      [sidebar_divider;
       sidebar_caption
         ("현재 세션 ID: " +:+ Py.prefix 8 (thread_id ss) +:+ "...");
       sidebar_caption ("메시지 수: " +:+ Py.str_of_int (length (messages ss)))] in
    let transcript := shown <$> display_chat_messages (messages ss) in
    let input := [chat_input_box "특허 관련 질문을 입력하세요..."] in
    let idle :=
      {| state := ss; screen := top ++ sidebar ++ transcript ++ input;
         rerun := false |} in
    match chat_input with
    | Some user_input =>
        if Py.truthy user_input then
          let '(ss', page) := process_user_input user_input agent ss in
          {| state := ss';
             screen := top ++ sidebar ++ transcript ++ input ++ (shown <$> page);
             rerun := false |}
        else idle
    | None => idle
    end.

(** The store a run hands to the next one: both keys present. *)
Definition store_of (ss : session_state) : session_store :=
  {| stored_messages := Some (messages ss); stored_thread_id := Some (thread_id ss) |}.

(** A run of the whole script. *)
Record script_run := {
  store_after : session_store;
  script_screen : list element;
  script_rerun : bool
}.

(** The script from its top: [OPENAI_API_KEY] is what [os.getenv] returns;
    without a key the run shows the error and stops before [main]. *)
Definition script (OPENAI_API_KEY : option string) (agent : agent_executor)
    (store : session_store) (pressed : bool) (chat_input : option string)
    (urandom urandom' : N) : script_run :=
  if from_option Py.truthy false OPENAI_API_KEY then
    let r := main agent store pressed chat_input urandom urandom' in
    {| store_after := store_of (state r);
       script_screen := screen r;
       script_rerun := rerun r |}
  else
    {| store_after := store;
       script_screen :=
         [shown (st_error "⚠️ OPENAI_API_KEY 환경 변수가 설정되지 않았습니다.")];
       script_rerun := false |}.

(** * Further vocabulary *)

(** [plain], as a test. *)
Definition is_plain (event : adapted_event) : bool :=
  match event with
  | tool_call _ | answer _ | tool_result _ => true
  | final _ _ | error _ => false
  end.

(** An item the adapter passes over: no message list, or a stage that is
    neither of the two it knows, with a message list that has a last
    message. *)
Definition inert_item (item : string * LangChain.Update) : Prop :=
  LangChain.messages item.2 = None
  ∨ (item.1 ≠ "agent" ∧ item.1 ≠ "tools" ∧ LangChain.messages item.2 ≠ Some []).

Definition inert (event : LangChain.Event) : Prop := Forall inert_item event.

(** An item whose message list is empty. *)
Definition hollow_item (item : string * LangChain.Update) : Prop :=
  LangChain.messages item.2 = Some [].

(** Transcripts made of response cycles: the message of the user, then,
    when the cycle was answered, the answer and its tool notices. *)
Inductive cycles : list message → Prop :=
| cycles_nil : cycles []
| cycles_unanswered ms text :
    cycles ms → cycles (ms ++ [user_message text])
| cycles_answered ms text reply names :
    cycles ms → Py.truthy reply = true →
    cycles (ms ++ user_message text :: assistant_message reply
               :: (tool_notice <$> names)).

Definition store_cycles (store : session_store) : Prop :=
  from_option cycles True (stored_messages store).

(** What the two placeholders of a cycle show in the end: a placeholder
    holds what was last put in it, nothing once emptied. *)
Definition response_slot (page : list widget) : option string :=
  last (omap (λ w, match w with
                   | response_placeholder_write text => Some text
                   | _ => None
                   end) page).

Definition tool_slot (page : list widget) : option string :=
  default None
    (last (omap (λ w, match w with
                      | tool_placeholder_caption text => Some (Some text)
                      | tool_placeholder_empty => Some None
                      | _ => None
                      end) page)).

(** The progress caption an adapted event puts in the tool placeholder. *)
Definition progress_caption (event : adapted_event) : option string :=
  match event with
  | tool_call tool_name => Some (tool_name +:+ " 실행 중...")
  | tool_result length =>
      Some ("데이터 수신 완료 (" +:+ Py.str_of_int length +:+ " 글자)")
  | _ => None
  end.

(** What the loop of the cycle shows for one adapted event, and the error
    an event stands for. *)
Definition widgets_of (event : adapted_event) : list widget :=
  match event with
  | tool_call _ | tool_result _ =>
      option_list (tool_placeholder_caption <$> progress_caption event)
  | answer content => [response_placeholder_write content]
  | final content _ => [response_placeholder_write content; tool_placeholder_empty]
  | error message => [st_error ("오류가 발생했습니다: " +:+ message)]
  end.

Definition error_of (event : adapted_event) : option string :=
  match event with
  | error message => Some message
  | _ => None
  end.

Definition exit_page (exit : loop_exit) : list widget :=
  match exit with
  | returned page => page
  | exhausted _ _ page => page
  end.

(** The widgets of the chat a run shows, in the order shown. *)
Definition chat_of (screen : list element) : list widget :=
  omap (λ e, match e with shown w => Some w | _ => None end) screen.

(** The page of a cycle. *)
Definition cycle_page (user_input : string) (agent : agent_executor)
    (ss : session_state) : list widget :=
  (process_user_input user_input agent ss).2.

(** ** Further scenarios *)

(** An agent message that requests a tool and carries text as well. *)
Definition chatty_request : LangChain.Message :=
  {| LangChain.content := "Let me look that up.";
     LangChain.tool_calls := [invocation "lookup_ipc_code"] |}.

(** A payload of a stage the adapter does not know. *)
Definition checkpoint : LangChain.Event :=
  reports "checkpoint" {| LangChain.content := "saved"; LangChain.tool_calls := [] |}.

(** A payload of an unknown stage with an empty message list. *)
Definition hollow_checkpoint : LangChain.Event :=
  [("checkpoint", {| LangChain.messages := Some [] |})].

(** The scenario with an unknown stage in its middle, with an empty message
    list in its middle, and with a chatty request at its start. *)
Definition noisy_scenario : LangChain.Stream :=
  {| LangChain.events :=
       [lookup_request; lookup_output] ++ checkpoint :: [classification];
     LangChain.ending := LangChain.StopIteration |}.

Definition hollow_scenario : LangChain.Stream :=
  {| LangChain.events := [lookup_request] ++ hollow_checkpoint :: [classification];
     LangChain.ending := LangChain.StopIteration |}.

Definition chatty_scenario : LangChain.Stream :=
  {| LangChain.events :=
       [] ++ ([("checkpoint", {| LangChain.messages := None |})]
              ++ ("agent",
                  {| LangChain.messages :=
                       Some ([{| LangChain.content := "Thinking.";
                                 LangChain.tool_calls := [] |}]
                             ++ [chatty_request]) |})
                 :: [])
          :: [lookup_output; classification];
     LangChain.ending := LangChain.StopIteration |}.

(** A stream that ends before any answer. *)
Definition unanswered_scenario : LangChain.Stream :=
  {| LangChain.events := [lookup_request; lookup_output];
     LangChain.ending := LangChain.StopIteration |}.

(** A stream that raises after an answer was shown. *)
Definition late_fault_scenario : LangChain.Stream :=
  {| LangChain.events := [classification];
     LangChain.ending := LangChain.Raise "connection reset" |}.

(** * Properties *)

(** ** The loops of the adapter *)

Lemma tool_call_names_app xs ys :
  tool_call_names (xs ++ ys) = tool_call_names xs ++ tool_call_names ys.
Proof. apply omap_app. Qed.

Lemma answers_app xs ys : answers (xs ++ ys) = answers xs ++ answers ys.
Proof. apply omap_app. Qed.

Lemma tool_result_lengths_app xs ys :
  tool_result_lengths (xs ++ ys) = tool_result_lengths xs ++ tool_result_lengths ys.
Proof. apply omap_app. Qed.

Lemma last_app_default {A} (d : A) (xs ys : list A) :
  default d (last (xs ++ ys)) = default (default d (last xs)) (last ys).
Proof.
  destruct ys as [|y ys _] using rev_ind.
  - by rewrite app_nil_r.
  - by rewrite app_assoc, !last_snoc.
Qed.

Lemma continues_characters c :
  Py.continues c = negb ((N_of_ascii c <? 128)%N || (192 <=? N_of_ascii c)%N).
Proof. by destruct c as [[] [] [] [] [] [] [] []]. Qed.

(** [len] counts the characters. *)
Lemma len_characters s : Py.len s = characters s.
Proof.
  unfold characters. induction s as [|c s IH]; [done|].
  simpl. rewrite continues_characters.
  destruct (_ || _); simpl; by rewrite IH.
Qed.

Lemma visit_yield st item : (visit st item).1.2 = item_yield item.
Proof.
  destruct item as [node value]. unfold visit, item_yield, first_invocation, answer_text.
  simpl. destruct (LangChain.messages value) as [messages|]; simpl; [|done].
  destruct (last messages) as [m|]; [|done].
  repeat case_decide; try done.
  - destruct (LangChain.tool_calls m); simpl; [|done].
    by destruct (Py.truthy _).
  - simpl. by rewrite len_characters.
Qed.

Lemma visit_fault st item : (visit st item).2 = item_fault item.
Proof.
  destruct item as [node value]. unfold visit, item_fault. simpl.
  destruct (LangChain.messages value) as [messages|]; simpl; [|done].
  destruct messages as [|m messages] using rev_ind; [done|].
  rewrite last_snoc. destruct (messages ++ [m]) eqn:E.
  { by destruct messages. }
  repeat case_decide; try done.
  destruct (LangChain.tool_calls m); [|done]. by destruct (Py.truthy _).
Qed.

Lemma visit_tracks st item : tracks st (visit st item).
Proof.
  destruct item as [node value]. unfold tracks, visit. simpl.
  destruct (LangChain.messages value) as [messages|]; simpl;
    [|by rewrite app_nil_r].
  destruct (last messages) as [m|]; [|by rewrite app_nil_r].
  repeat case_decide; simpl;
    [destruct (LangChain.tool_calls m) as [|call calls]; simpl;
       [destruct (Py.truthy (LangChain.content m)) eqn:Htext; simpl|]|..];
    rewrite ?app_nil_r; repeat split; auto; by repeat constructor.
Qed.

Section Loop.

Context {A : Type} (body : locals → A → progress).

Lemma for_each_tracks :
  (∀ st x, tracks st (body st x)) → ∀ xs st, tracks st (for_each body st xs).
Proof.
  intros Hbody. induction xs as [|x xs IH]; intros st; simpl.
  - unfold tracks. simpl. by rewrite app_nil_r.
  - specialize (Hbody st x). destruct (body st x) as [[st1 out1] [e|]]; [done|].
    specialize (IH st1). destruct (for_each body st1 xs) as [[st2 out2] r].
    unfold tracks in *. simpl in *.
    destruct Hbody as (Hc1 & Ha1 & Hp1 & Ht1), IH as (Hc2 & Ha2 & Hp2 & Ht2).
    rewrite tool_call_names_app, answers_app, fmap_app, last_app_default.
    repeat split.
    + by rewrite Hc2, Hc1, app_assoc.
    + by rewrite Ha2, Ha1.
    + by apply Forall_app.
    + by apply Forall_app.
Qed.

Context (yield : A → list adapted_event) (fault : A → option string).
Hypothesis body_yield : ∀ st x, (body st x).1.2 = yield x.
Hypothesis body_fault : ∀ st x, (body st x).2 = fault x.

Lemma for_each_yield xs st :
  (for_each body st xs).1.2 = flat_map yield (upto fault xs).
Proof.
  revert st. induction xs as [|x xs IH]; intros st; simpl; [done|].
  specialize (body_yield st x). specialize (body_fault st x).
  destruct (body st x) as [[st1 out1] r1]. simpl in *. subst.
  destruct (fault x); simpl; [by rewrite app_nil_r|].
  specialize (IH st1). destruct (for_each body st1 xs) as [[st2 out2] r].
  simpl in *. by subst.
Qed.

Lemma for_each_fault xs st : (for_each body st xs).2 = first_fault fault xs.
Proof.
  revert st. unfold first_fault.
  induction xs as [|x xs IH]; intros st; simpl; [done|].
  specialize (body_fault st x).
  destruct (body st x) as [[st1 out1] r1]. simpl in *. subst.
  destruct (fault x); simpl; [done|].
  specialize (IH st1). by destruct (for_each body st1 xs) as [[st2 out2] r].
Qed.

End Loop.

Lemma on_event_yield st event : (on_event st event).1.2 = event_yield event.
Proof. apply for_each_yield; [apply visit_yield | apply visit_fault]. Qed.

Lemma on_event_fault st event : (on_event st event).2 = event_fault event.
Proof. apply for_each_fault, visit_fault. Qed.

Lemma on_event_tracks st event : tracks st (on_event st event).
Proof. apply for_each_tracks, visit_tracks. Qed.

(** The events of the loop, the exception that ends it and the closing
    event, read off the stream. *)
Lemma try_block_spec stream :
  let out := flat_map event_yield (upto event_fault (LangChain.events stream)) in
  try_block stream =
    match stream_fault stream with
    | Some e => (out, Some e)
    | None =>
        (out ++ match last (answers out) with
                | Some text => [final text (tool_notice <$> tool_call_names out)]
                | None => []
                end, None)
    end.
Proof.
  unfold try_block, stream_fault. simpl.
  pose proof (for_each_tracks on_event on_event_tracks
                (LangChain.events stream) fresh_locals) as Htracks.
  pose proof (for_each_yield on_event event_yield event_fault
                on_event_yield on_event_fault
                (LangChain.events stream) fresh_locals) as Hout.
  pose proof (for_each_fault on_event event_fault on_event_fault
                (LangChain.events stream) fresh_locals) as Hfault.
  destruct (for_each on_event fresh_locals (LangChain.events stream))
    as [[st out] r].
  unfold tracks in Htracks. simpl in *. subst.
  destruct (first_fault event_fault (LangChain.events stream)); [done|].
  destruct (LangChain.ending stream); [|done].
  destruct Htracks as (Hcalls & Hanswer & _ & Htruthy).
  rewrite Hcalls, Hanswer.
  destruct (last (answers _)) as [text|] eqn:Hlast; simpl.
  - apply last_Some_elem_of in Hlast.
    rewrite Forall_forall in Htruthy. by rewrite (Htruthy _ Hlast).
  - by rewrite app_nil_r.
Qed.

Lemma try_block_plain stream :
  Forall plain (flat_map event_yield (upto event_fault (LangChain.events stream))).
Proof.
  pose proof (for_each_tracks on_event on_event_tracks
                (LangChain.events stream) fresh_locals) as (_ & _ & Hplain & _).
  by rewrite (for_each_yield on_event event_yield event_fault
                on_event_yield on_event_fault) in Hplain.
Qed.

(** What the generator yields, read off the stream. *)
Lemma stream_agent_response_spec agent user_input thread_id :
  let stream := stream_of agent user_input thread_id in
  let out := flat_map event_yield (upto event_fault (LangChain.events stream)) in
  stream_agent_response agent user_input thread_id =
    {| yielded :=
         out ++ match stream_fault stream with
                | Some e => [error e]
                | None =>
                    match last (answers out) with
                    | Some text => [final text (tool_notice <$> tool_call_names out)]
                    | None => []
                    end
                end;
       raised := None |}.
Proof.
  unfold stream_agent_response, stream_of. simpl.
  rewrite try_block_spec. by destruct (stream_fault _).
Qed.

(** ** Streams that keep the input contract *)

Lemma upto_all {A} (fault : A → option string) xs :
  Forall (λ x, fault x = None) xs → upto fault xs = xs ∧ first_fault fault xs = None.
Proof.
  unfold first_fault. induction 1 as [|x xs Hx _ [IH1 IH2]]; simpl; [done|].
  by rewrite Hx, IH1.
Qed.

Lemma nonempty_messages_no_fault item : nonempty_messages item → item_fault item = None.
Proof.
  unfold nonempty_messages, item_fault.
  by destruct (LangChain.messages item.2) as [[|]|].
Qed.

Lemma conforming_no_fault event :
  Forall nonempty_messages event →
  upto item_fault event = event ∧ event_fault event = None.
Proof.
  intros H. apply upto_all. eapply Forall_impl; [done|].
  apply nonempty_messages_no_fault.
Qed.

Lemma conforming_events_no_fault events :
  Forall conforming events →
  upto event_fault events = events ∧ first_fault event_fault events = None.
Proof.
  intros H. apply upto_all. eapply Forall_impl; [done|].
  intros event [_ Hne]. by apply conforming_no_fault.
Qed.

Lemma omap_flat_map {A B C} (h : B → option C) (g : A → list B) xs :
  omap h (flat_map g xs) = flat_map (λ x, omap h (g x)) xs.
Proof. induction xs as [|x xs IH]; simpl; [done|]. by rewrite omap_app, IH. Qed.

Lemma flat_map_option_list {A B} (f : A → option B) xs :
  flat_map (λ x, option_list (f x)) xs = omap f xs.
Proof.
  induction xs as [|x xs IH]; simpl; [done|]. rewrite IH. by destruct (f x).
Qed.

(** In a dict only the item of a stage can contribute what that stage alone
    yields. *)
Lemma flat_map_get {B} (f : string * LangChain.Update → list B) node event :
  NoDup event.*1 →
  (∀ k v, k ≠ node → f (k, v) = []) →
  flat_map f event = match get node event with
                     | Some v => f (node, v)
                     | None => []
                     end.
Proof.
  intros Hdict Hf. induction event as [|[k v] event IH]; simpl; [done|].
  simpl in Hdict. apply NoDup_cons in Hdict as [Hk Hdict].
  case_decide as Hnode.
  - subst k. clear IH. cut (flat_map f event = []).
    { intros ->. by rewrite app_nil_r. }
    induction event as [|[k' v'] event IH]; simpl; [done|].
    simpl in Hk, Hdict. apply not_elem_of_cons in Hk as [Hk' Hk].
    apply NoDup_cons in Hdict as [_ Hdict].
    rewrite Hf by done. by apply IH.
  - rewrite Hf by done. by apply IH.
Qed.

Lemma event_tool_calls event :
  conforming event →
  tool_call_names (event_yield event) = option_list (requested_tool event).
Proof.
  intros [Hdict Hne]. unfold event_yield, tool_call_names.
  rewrite (proj1 (conforming_no_fault _ Hne)), omap_flat_map.
  rewrite (flat_map_get _ "agent") by
    (first [done | intros k v Hk; unfold item_yield; simpl;
     destruct (from_option last None (LangChain.messages v)); [|done];
     repeat case_decide; done]).
  unfold requested_tool, last_message, item_yield.
  destruct (get "agent" event) as [v|]; simpl; [|done].
  destruct (from_option last None (LangChain.messages v)) as [m|]; simpl; [|done].
  destruct (first_invocation m); simpl; [done|].
  by destruct (answer_text m).
Qed.

Lemma event_answers event :
  conforming event → answers (event_yield event) = option_list (answered event).
Proof.
  intros [Hdict Hne]. unfold event_yield, answers.
  rewrite (proj1 (conforming_no_fault _ Hne)), omap_flat_map.
  rewrite (flat_map_get _ "agent") by
    (first [done | intros k v Hk; unfold item_yield; simpl;
     destruct (from_option last None (LangChain.messages v)); [|done];
     repeat case_decide; done]).
  unfold answered, last_message, item_yield.
  destruct (get "agent" event) as [v|]; simpl; [|done].
  destruct (from_option last None (LangChain.messages v)) as [m|]; simpl; [|done].
  unfold first_invocation, answer_text.
  destruct (LangChain.tool_calls m); simpl; [|done].
  by destruct (Py.truthy _).
Qed.

Lemma event_tool_results event :
  conforming event →
  tool_result_lengths (event_yield event) = option_list (tool_output_length event).
Proof.
  intros [Hdict Hne]. unfold event_yield, tool_result_lengths.
  rewrite (proj1 (conforming_no_fault _ Hne)), omap_flat_map.
  rewrite (flat_map_get _ "tools") by
    (first [done | intros k v Hk; unfold item_yield; simpl;
     destruct (from_option last None (LangChain.messages v)) as [m|]; [|done];
     repeat case_decide; try done;
     destruct (first_invocation m); [done|]; by destruct (answer_text m)]).
  unfold tool_output_length, last_message, item_yield.
  destruct (get "tools" event) as [v|]; simpl; [|done].
  by destruct (from_option last None (LangChain.messages v)) as [m|].
Qed.

(** A reading of the adapted events that every conforming raw event answers
    with at most one value is, over the stream, the list of those values. *)
Lemma project_stream {C} (h : adapted_event → option C)
    (f : LangChain.Event → option C) events :
  (∀ event, conforming event → omap h (event_yield event) = option_list (f event)) →
  Forall conforming events →
  omap h (flat_map event_yield (upto event_fault events)) = omap f events.
Proof.
  intros Hevent Hall.
  rewrite (proj1 (conforming_events_no_fault _ Hall)), omap_flat_map.
  rewrite <- flat_map_option_list.
  induction Hall as [|event events Hc _ IH]; simpl; [done|].
  by rewrite IH, Hevent.
Qed.

Lemma conforming_stream_fault stream :
  Forall conforming (LangChain.events stream) →
  stream_fault stream = match LangChain.ending stream with
                        | LangChain.Raise e => Some e
                        | LangChain.StopIteration => None
                        end.
Proof.
  intros Hall. unfold stream_fault.
  by rewrite (proj2 (conforming_events_no_fault _ Hall)).
Qed.

Lemma stream_tool_calls events :
  Forall conforming events →
  tool_call_names (flat_map event_yield (upto event_fault events))
  = omap requested_tool events.
Proof. apply project_stream, event_tool_calls. Qed.

Lemma stream_answers events :
  Forall conforming events →
  answers (flat_map event_yield (upto event_fault events)) = omap answered events.
Proof. apply project_stream, event_answers. Qed.

Lemma stream_tool_results events :
  Forall conforming events →
  tool_result_lengths (flat_map event_yield (upto event_fault events))
  = omap tool_output_length events.
Proof. apply project_stream, event_tool_results. Qed.

(** ** The adapter: tool calls *)

(** C1: over a stream of raw events that keep the input contract, the names
    carried by the tool_call events the adapter yields are, in order, the
    names of the first invocation requested by each reasoning-stage event
    whose last message requests invocations: one tool_call per such event,
    whatever else the event requests and however the stream ends. *)
Theorem tool_call_per_requesting_event agent user_input thread_id :
  Forall conforming (LangChain.events (stream_of agent user_input thread_id)) →
  tool_call_names (yielded (stream_agent_response agent user_input thread_id))
  = omap requested_tool (LangChain.events (stream_of agent user_input thread_id)).
Proof.
  intros Hall. rewrite stream_agent_response_spec. simpl.
  rewrite tool_call_names_app.
  rewrite stream_tool_calls by done.
  destruct (stream_fault _); simpl; [by rewrite app_nil_r|].
  destruct (last (answers _)); simpl; by rewrite app_nil_r.
Qed.

Lemma tool_call_per_requesting_event_witness :
  Forall conforming (LangChain.events (stream_of (scripted scenario) "q" "t"))
  ∧ tool_call_names (yielded (stream_agent_response (scripted scenario) "q" "t"))
    = ["lookup_ipc_code"].
Proof.
  split.
  - unfold conforming, nonempty_messages. simpl. solve_conforming.
  - rewrite (tool_call_per_requesting_event (scripted scenario) "q" "t").
    + reflexivity.
    + unfold conforming, nonempty_messages. simpl. solve_conforming.
Defined.

(** ** The adapter: the closing event *)

(** C2: when a stream that keeps the input contract is consumed to its end
    without an exception, what the adapter yields is a body of tool_call,
    tool_result and answer events followed by at most one final event; the
    final event is there exactly when some reasoning-stage event answered
    (text present, no invocation), and then it carries the text of the last
    such answer and, as its log, one message per tool_call event of the
    body, in order: a message of role "tool" that names the tool of the event
    in its tool_name and in its content. *)
Theorem final_closes_fault_free_cycle agent user_input thread_id :
  Forall conforming (LangChain.events (stream_of agent user_input thread_id)) →
  LangChain.ending (stream_of agent user_input thread_id) = LangChain.StopIteration →
  ∃ body,
    Forall plain body
    ∧ yielded (stream_agent_response agent user_input thread_id)
      = body ++
        match last (omap answered
                      (LangChain.events (stream_of agent user_input thread_id))) with
        | Some text =>
            [final text
               ((λ name, {| role := "tool";
                            content := "도구 실행: " +:+ name;
                            tool_name := Some name |})
                  <$> tool_call_names body)]
        | None => []
        end.
Proof.
  intros Hall Hend. eexists. split; [apply try_block_plain|].
  rewrite stream_agent_response_spec. simpl.
  rewrite conforming_stream_fault, Hend by done.
  by rewrite stream_answers.
Qed.

Lemma final_closes_fault_free_cycle_witness :
  Forall conforming (LangChain.events (stream_of (scripted scenario) "q" "t"))
  ∧ LangChain.ending (stream_of (scripted scenario) "q" "t") = LangChain.StopIteration
  ∧ ∃ body,
      Forall plain body
      ∧ yielded (stream_agent_response (scripted scenario) "q" "t")
        = body ++ [final "Classification G06F 17/00 applies."
                     ((λ name, {| role := "tool";
                                  content := "도구 실행: " +:+ name;
                                  tool_name := Some name |})
                        <$> tool_call_names body)].
Proof.
  assert (Forall conforming (LangChain.events (stream_of (scripted scenario) "q" "t")))
    as Hall by (unfold conforming, nonempty_messages; simpl; solve_conforming).
  split; [exact Hall|]. split; [reflexivity|].
  exact (final_closes_fault_free_cycle (scripted scenario) "q" "t" Hall eq_refl).
Defined.

(** ** The adapter: exceptions *)



Example broken_scenario_yields :
  yielded (stream_agent_response (scripted broken_scenario) "q" "t")
  = [tool_call "lookup_ipc_code"; error "connection reset"].
Proof. reflexivity. Qed.

Example scenario_yields :
  yielded (stream_agent_response (scripted scenario) "q" "t")
  = [tool_call "lookup_ipc_code"; tool_result 3;
     answer "Classification G06F 17/00 applies.";
     final "Classification G06F 17/00 applies." [tool_notice "lookup_ipc_code"]].
Proof. reflexivity. Qed.

(** An empty message list makes the reading of the event raise: the events
    after it are not read. *)
Example hollow_event_yields :
  yielded (stream_agent_response
             (scripted {| LangChain.events := [lookup_request; hollow; classification];
                          LangChain.ending := LangChain.StopIteration |}) "q" "t")
  = [tool_call "lookup_ipc_code"; error "list index out of range"].
Proof. reflexivity. Qed.

(** ** The adapter: tool results *)

Lemma same_item_yield item item' :
  same_item item item' →
  item_yield item = item_yield item' ∧ item_fault item = item_fault item'.
Proof.
  destruct item as [k v], item' as [k' v']. intros [Hk Hv]. simpl in *. subst k'.
  case_decide as Htools; [|by subst v'].
  subst k. unfold same_size_output in Hv. unfold item_yield, item_fault. simpl.
  destruct (LangChain.messages v) as [l|], (LangChain.messages v') as [l'|];
    try done; simpl.
  destruct (last l) as [m|] eqn:Hl, (last l') as [m'|] eqn:Hl'; try done.
  - rewrite Hv. split; [done|].
    destruct l, l'; try done.
  - apply last_None in Hl, Hl'. by subst.
Qed.

Lemma upto_Forall2 {A} (R : A → A → Prop) (yield : A → list adapted_event)
    (fault : A → option string) xs ys :
  (∀ x y, R x y → yield x = yield y ∧ fault x = fault y) →
  Forall2 R xs ys →
  flat_map yield (upto fault xs) = flat_map yield (upto fault ys)
  ∧ first_fault fault xs = first_fault fault ys.
Proof.
  intros HR. unfold first_fault.
  induction 1 as [|x y xs ys Hxy _ [IH1 IH2]]; simpl; [done|].
  destruct (HR _ _ Hxy) as [-> ->].
  destruct (fault y); [done|]. split; [by rewrite IH1 | exact IH2].
Qed.

Lemma same_event_yield event event' :
  Forall2 same_item event event' →
  event_yield event = event_yield event' ∧ event_fault event = event_fault event'.
Proof. apply upto_Forall2, same_item_yield. Qed.

Lemma same_up_to_tool_output_try_block stream stream' :
  same_up_to_tool_output stream stream' → try_block stream = try_block stream'.
Proof.
  intros [Hevents Hend]. rewrite !try_block_spec. unfold stream_fault. cbv zeta.
  destruct (upto_Forall2 (A := LangChain.Event) (Forall2 same_item)
              event_yield event_fault _ _ same_event_yield Hevents) as [-> ->].
  by rewrite Hend.
Qed.

(** C8: over a stream that keeps the input contract, the lengths carried by
    the tool_result events the adapter yields are, in order, the sizes, in
    characters, of the stringified content of the last message of each
    tool-execution-stage event that has a message list; and the content
    itself reaches nothing the adapter yields: a stream that differs only in
    the text of such last messages, their number of characters kept, yields
    the same events. *)
Theorem tool_result_reports_size_only agent user_input thread_id :
  Forall conforming (LangChain.events (stream_of agent user_input thread_id)) →
  tool_result_lengths (yielded (stream_agent_response agent user_input thread_id))
  = omap tool_output_length (LangChain.events (stream_of agent user_input thread_id))
  ∧ ∀ agent' user_input' thread_id',
      same_up_to_tool_output (stream_of agent user_input thread_id)
        (stream_of agent' user_input' thread_id') →
      stream_agent_response agent' user_input' thread_id'
      = stream_agent_response agent user_input thread_id.
Proof.
  intros Hall. split.
  - rewrite stream_agent_response_spec. simpl.
    rewrite tool_result_lengths_app, stream_tool_results by done.
    destruct (stream_fault _); simpl; [by rewrite app_nil_r|].
    destruct (last (answers _)); simpl; by rewrite app_nil_r.
  - intros agent' user_input' thread_id' Hsame.
    apply same_up_to_tool_output_try_block in Hsame.
    unfold stream_agent_response, stream_of in *. simpl. by rewrite Hsame.
Qed.

Lemma tool_result_reports_size_only_witness :
  Forall conforming (LangChain.events (stream_of (scripted scenario) "q" "t"))
  ∧ tool_result_lengths (yielded (stream_agent_response (scripted scenario) "q" "t"))
    = [3]
  ∧ stream_agent_response (scripted scenario') "q" "t"
    = stream_agent_response (scripted scenario) "q" "t".
Proof.
  assert (Forall conforming (LangChain.events (stream_of (scripted scenario) "q" "t")))
    as Hall by (unfold conforming, nonempty_messages; simpl; solve_conforming).
  split; [exact Hall|].
  destruct (tool_result_reports_size_only (scripted scenario) "q" "t" Hall)
    as [Hlengths Hsame].
  split; [exact Hlengths|].
  apply Hsame. split; [|reflexivity].
  repeat constructor.
Defined.

(** The length counts characters, not bytes: two for a text of two Hangul
    syllables. *)
Example hangul_output_length :
  yielded (stream_agent_response
             (scripted {| LangChain.events :=
                            [reports "tools" {| LangChain.content := "특허";
                                                LangChain.tool_calls := [] |}];
                          LangChain.ending := LangChain.StopIteration |}) "q" "t")
  = [tool_result 2].
Proof. reflexivity. Qed.

Example hangul_output_same_size :
  tool_output_length other_output = tool_output_length lookup_output.
Proof. reflexivity. Qed.

(** ** The adapter: determinism *)

Lemma upto_idem {A} (fault : A → option string) xs :
  upto fault (upto fault xs) = upto fault xs.
Proof.
  induction xs as [|x xs IH]; simpl; [done|].
  destruct (fault x); simpl; [done|]. by rewrite IH.
Qed.

Lemma first_fault_upto {A} (fault : A → option string) xs :
  first_fault fault (upto fault xs) = first_fault fault xs.
Proof.
  unfold first_fault. induction xs as [|x xs IH]; [done|].
  simpl. destruct (fault x); [done|]. exact IH.
Qed.

(** The adapter reads the consumed part of a stream only. *)
Lemma try_block_consumed stream : try_block (consumed stream) = try_block stream.
Proof.
  rewrite !try_block_spec. unfold stream_fault, consumed. cbv zeta. simpl.
  rewrite upto_idem, first_fault_upto.
  by destruct (first_fault event_fault (LangChain.events stream)).
Qed.

(** C10: two runs of the adapter that consume the same raw events, ended the
    same way, yield the same adapted events and end the same way, whatever
    the agents, the user inputs and the thread identifiers of the two runs:
    what the generator does is a function of the consumed part of the
    stream. *)
Theorem adapter_deterministic agent agent' user_input user_input' thread_id thread_id' :
  consumed (stream_of agent user_input thread_id)
  = consumed (stream_of agent' user_input' thread_id') →
  stream_agent_response agent user_input thread_id
  = stream_agent_response agent' user_input' thread_id'.
Proof.
  intros Hsame. unfold stream_agent_response. simpl.
  fold (stream_of agent user_input thread_id).
  fold (stream_of agent' user_input' thread_id').
  rewrite <- (try_block_consumed (stream_of agent user_input thread_id)).
  rewrite <- (try_block_consumed (stream_of agent' user_input' thread_id')).
  by rewrite Hsame.
Qed.

Lemma adapter_deterministic_witness :
  consumed (stream_of (scripted scenario) "first question" "thread-1")
  = consumed (stream_of (λ _ thread_id, if decide (thread_id = "thread-2")
                                        then scenario else broken_scenario)
                "second question" "thread-2")
  ∧ stream_agent_response (scripted scenario) "first question" "thread-1"
    = stream_agent_response
        (λ _ thread_id, if decide (thread_id = "thread-2")
                        then scenario else broken_scenario)
        "second question" "thread-2".
Proof.
  split; [reflexivity|].
  exact (adapter_deterministic (scripted scenario)
           (λ _ thread_id, if decide (thread_id = "thread-2")
                           then scenario else broken_scenario)
           "first question" "second question" "thread-1" "thread-2" eq_refl).
Defined.

(** ** The response cycle *)

Lemma last_cons_default {A} (d x : A) xs :
  default d (last (x :: xs)) = default x (last xs).
Proof. rewrite last_cons. by destruct (last xs). Qed.

Lemma for_event_error events m final_answer tool_calls page :
  error m ∈ events →
  ∃ page', for_event events final_answer tool_calls page = returned page'.
Proof.
  revert final_answer tool_calls page.
  induction events as [|event events IH]; intros final_answer tool_calls page Hin.
  - by apply elem_of_nil in Hin.
  - apply elem_of_cons in Hin as [<-|Hin]; [by eexists|].
    destruct event; simpl; eauto.
Qed.

Lemma for_event_exhausted events final_answer tool_calls page final_answer' tool_calls' page' :
  for_event events final_answer tool_calls page
  = exhausted final_answer' tool_calls' page' →
  final_answer' = default final_answer (received_answer events)
  ∧ tool_calls' = tool_calls ++ (tool_notice <$> tool_call_names events).
Proof.
  unfold received_answer. revert final_answer tool_calls page.
  induction events as [|event events IH]; intros final_answer tool_calls page Hrun.
  - simpl in Hrun. injection Hrun as <- <- <-. by rewrite app_nil_r.
  - destruct event; simpl in Hrun; try done; apply IH in Hrun as [-> ->];
      simpl; rewrite ?last_cons_default, <- ?app_assoc; done.
Qed.

Lemma for_event_no_error events final_answer tool_calls page :
  (∀ m, error m ∉ events) →
  ∃ final_answer' tool_calls' page',
    for_event events final_answer tool_calls page
    = exhausted final_answer' tool_calls' page'.
Proof.
  revert final_answer tool_calls page.
  induction events as [|event events IH]; intros final_answer tool_calls page Hno.
  - by repeat eexists.
  - assert (∀ m, error m ∉ events) as Hno'.
    { intros m Hin. apply (Hno m). by right. }
    destruct event; simpl; eauto.
    exfalso. eapply Hno. by left.
Qed.

Lemma foldl_append ss tool_calls :
  messages (foldl append ss tool_calls) = messages ss ++ tool_calls
  ∧ thread_id (foldl append ss tool_calls) = thread_id ss.
Proof.
  revert ss. induction tool_calls as [|m tool_calls IH]; intros ss; simpl.
  - by rewrite app_nil_r.
  - destruct (IH (append ss m)) as [-> ->]. simpl. by rewrite <- app_assoc.
Qed.

Lemma never_raises agent user_input thread_id :
  raised (stream_agent_response agent user_input thread_id) = None.
Proof. by rewrite stream_agent_response_spec. Qed.

Lemma try_block_truthy stream :
  Forall (λ text, Py.truthy text = true)
    (answers (flat_map event_yield (upto event_fault (LangChain.events stream)))).
Proof.
  pose proof (for_each_tracks on_event on_event_tracks
                (LangChain.events stream) fresh_locals) as (_ & _ & _ & Htruthy).
  by rewrite (for_each_yield on_event event_yield event_fault
                on_event_yield on_event_fault) in Htruthy.
Qed.

Lemma received_plain events :
  Forall plain events →
  omap (λ event, match event with
                 | answer text | final text _ => Some text
                 | _ => None
                 end) events
  = answers events.
Proof.
  unfold answers. induction 1 as [|event events Hevent _ IH]; [done|].
  destruct event; try done; simpl; first [exact IH | f_equal; exact IH].
Qed.

(** The answer a cycle receives from the adapter is the last one yielded. *)
Lemma received_answer_adapter agent user_input thread_id :
  received_answer (yielded (stream_agent_response agent user_input thread_id))
  = last (answers (flat_map event_yield
                     (upto event_fault
                        (LangChain.events (stream_of agent user_input thread_id))))).
Proof.
  rewrite stream_agent_response_spec. simpl. unfold received_answer.
  rewrite omap_app, received_plain by apply try_block_plain.
  destruct (stream_fault _); simpl; [by rewrite app_nil_r|].
  destruct (last (answers _)) as [text|] eqn:Hlast; simpl.
  - by rewrite last_snoc.
  - by rewrite app_nil_r.
Qed.

Lemma received_answer_truthy agent user_input thread_id text :
  received_answer (yielded (stream_agent_response agent user_input thread_id))
  = Some text →
  Py.truthy text = true.
Proof.
  rewrite received_answer_adapter. intros Hlast.
  apply last_Some_elem_of in Hlast.
  pose proof (try_block_truthy (stream_of agent user_input thread_id)) as Htruthy.
  rewrite Forall_forall in Htruthy. by apply Htruthy.
Qed.

(** C4: when the adapted events of a response cycle hold an error event,
    [process_user_input] leaves in the session store the messages it held
    before followed by the message of the user and by nothing else, no
    assistant message and no tool notice, and leaves the identifier as it
    was. *)
Theorem error_cycle_keeps_only_user_message user_input agent ss m :
  error m ∈ yielded (stream_agent_response agent user_input (thread_id ss)) →
  messages (process_user_input user_input agent ss).1
  = messages ss ++ [{| role := "user"; content := user_input; tool_name := None |}]
  ∧ thread_id (process_user_input user_input agent ss).1 = thread_id ss.
Proof.
  intros Hin. unfold process_user_input. simpl.
  by destruct (for_event_error _ m EmptyString [] [chat_write "user" user_input] Hin)
    as [page' ->].
Qed.

Lemma error_cycle_keeps_only_user_message_witness :
  error "connection reset"
    ∈ yielded (stream_agent_response (scripted broken_scenario) "new question"
                 (thread_id session0))
  ∧ messages (process_user_input "new question" (scripted broken_scenario) session0).1
    = messages session0
      ++ [{| role := "user"; content := "new question"; tool_name := None |}]
  ∧ thread_id (process_user_input "new question" (scripted broken_scenario) session0).1
    = thread_id session0.
Proof.
  assert (error "connection reset"
            ∈ yielded (stream_agent_response (scripted broken_scenario) "new question"
                         (thread_id session0))) as Hin.
  { right. left. }
  split; [exact Hin|].
  exact (error_cycle_keeps_only_user_message "new question"
           (scripted broken_scenario) session0 "connection reset" Hin).
Defined.

(** C9: at the end of a response cycle whose adapted events hold no error
    event, [process_user_input] has appended, after the message of the user,
    the assistant message of the answer last received followed by one
    message per tool_call event, in the order of the events, of role "tool"
    and naming the tool of the event in its tool_name and in its content, so
    that these notices come after the answer they preceded; and nothing but
    the message of the user when no answer was received, whatever tool_call
    events there were. *)
Theorem cycle_stores_answer_then_notices user_input agent ss :
  (∀ m, error m ∉ yielded (stream_agent_response agent user_input (thread_id ss))) →
  messages (process_user_input user_input agent ss).1
  = messages ss ++ {| role := "user"; content := user_input; tool_name := None |} ::
      match received_answer
              (yielded (stream_agent_response agent user_input (thread_id ss))) with
      | Some text =>
          {| role := "assistant"; content := text; tool_name := None |} ::
            ((λ name, {| role := "tool";
                         content := "도구 실행: " +:+ name;
                         tool_name := Some name |})
               <$> tool_call_names
                     (yielded (stream_agent_response agent user_input (thread_id ss))))
      | None => []
      end.
Proof.
  intros Hno. unfold process_user_input. simpl.
  destruct (for_event_no_error _ EmptyString [] [chat_write "user" user_input] Hno)
    as (final_answer' & tool_calls' & page' & Hrun).
  rewrite Hrun, never_raises.
  apply for_event_exhausted in Hrun as [-> ->]. simpl.
  pose proof (received_answer_truthy agent user_input (thread_id ss)) as Htruthy.
  destruct (received_answer _) as [text|]; simpl; [|done].
  rewrite (Htruthy text eq_refl). cbn [fst].
  rewrite (proj1 (foldl_append _ _)). simpl. by rewrite <- !app_assoc.
Qed.

Lemma cycle_stores_answer_then_notices_witness :
  (∀ m, error m ∉ yielded (stream_agent_response (scripted scenario) "new question"
                              (thread_id session0)))
  ∧ messages (process_user_input "new question" (scripted scenario) session0).1
    = messages session0 ++
        [{| role := "user"; content := "new question"; tool_name := None |};
         {| role := "assistant"; content := "Classification G06F 17/00 applies.";
            tool_name := None |};
         {| role := "tool"; content := "도구 실행: lookup_ipc_code";
            tool_name := Some "lookup_ipc_code" |}].
Proof.
  assert (∀ m, error m ∉ yielded (stream_agent_response (scripted scenario)
                                    "new question" (thread_id session0))) as Hno.
  { intros m Hin. change (error m ∈ [tool_call "lookup_ipc_code"; tool_result 3;
       answer "Classification G06F 17/00 applies.";
       final "Classification G06F 17/00 applies." [tool_notice "lookup_ipc_code"]])
      in Hin.
    repeat (apply elem_of_cons in Hin as [Hin|Hin]; [discriminate Hin|]).
    by apply elem_of_nil in Hin. }
  split; [exact Hno|].
  exact (cycle_stores_answer_then_notices "new question" (scripted scenario)
           session0 Hno).
Defined.

(** ** The session store *)

Lemma recognized_tool_notice name : recognized (tool_notice name).
Proof. unfold recognized. simpl. solve_conforming. Qed.

(** The messages [process_user_input] appends all carry a recognized role. *)
Lemma process_user_input_appends user_input agent ss :
  ∃ added,
    messages (process_user_input user_input agent ss).1 = messages ss ++ added
    ∧ Forall recognized added.
Proof.
  assert (recognized (user_message user_input)) as Huser
    by (unfold recognized; simpl; solve_conforming).
  unfold process_user_input. simpl.
  destruct (for_event _ _ _ _) as [page'|final_answer' tool_calls' page'] eqn:Hrun.
  { exists [user_message user_input]. split; [done|]. by repeat constructor. }
  apply for_event_exhausted in Hrun as [_ ->]. simpl.
  rewrite never_raises. destruct (Py.truthy final_answer').
  - exists (user_message user_input :: assistant_message final_answer' ::
            (tool_notice <$> tool_call_names
               (yielded (stream_agent_response agent user_input (thread_id ss))))).
    cbn [fst]. rewrite (proj1 (foldl_append _ _)). simpl.
    split; [by rewrite <- !app_assoc|].
    repeat apply Forall_cons_2; try done.
    + unfold recognized. simpl. solve_conforming.
    + apply Forall_fmap, Forall_true. intros name. apply recognized_tool_notice.
  - exists [user_message user_input]. split; [done|]. by repeat constructor.
Qed.

(** C5, as the code has it: appending to the session store is the append of
    a list, which checks nothing and adds every message it is given at the
    end of the transcript, leaving the identifier alone; the roles are kept
    to the three recognized tags by the caller: whatever the cycle, the
    messages [process_user_input] appends are user, assistant or tool
    messages, each with a content. *)
Theorem append_validates_nothing ss m user_input agent :
  messages (append ss m) = messages ss ++ [m]
  ∧ thread_id (append ss m) = thread_id ss
  ∧ ∃ added,
      messages (process_user_input user_input agent ss).1 = messages ss ++ added
      ∧ Forall recognized added.
Proof. repeat split. apply process_user_input_appends. Qed.

(** C5 as stated fails: a message with an unrecognized role is added. *)
Lemma append_admits_unrecognized_role :
  ¬ (∀ ss m, ¬ recognized m → messages (append ss m) = messages ss).
Proof.
  intros Hrejects.
  specialize (Hrejects session0
                {| role := "system"; content := "be brief"; tool_name := None |}).
  simpl in Hrejects. discriminate Hrejects.
  unfold recognized. simpl. intros Hrole.
  repeat (apply elem_of_cons in Hrole as [Hrole|Hrole]; [discriminate Hrole|]).
  by apply elem_of_nil in Hrole.
Qed.

(** ** The transcript *)

Lemma display_message_recognized m : recognized m → display_message m = [rendered m].
Proof.
  unfold recognized, display_message, rendered. intros Hrole.
  repeat (apply elem_of_cons in Hrole as [->|Hrole]); [done..|].
  by apply elem_of_nil in Hrole.
Qed.

(** C6: replaying a session whose messages all carry a recognized role shows
    one entry per message, in the order stored: the content for a user or an
    assistant message, and for a tool message the running indicator that
    names its tool, which no change of the content of the message alters. *)
Theorem transcript_replay ss :
  Forall recognized (messages ss) →
  display_chat_messages (messages ss) = rendered <$> messages ss
  ∧ length (display_chat_messages (messages ss)) = length (messages ss)
  ∧ ∀ m text,
      m ∈ messages ss → role m = "tool" →
      rendered m = chat_caption "assistant" (running_indicator m)
      ∧ display_message {| role := role m; content := text; tool_name := tool_name m |}
        = display_message m.
Proof.
  intros Hall.
  assert (display_chat_messages (messages ss) = rendered <$> messages ss) as Hshown.
  { induction Hall as [|m ms Hm _ IH]; simpl; [done|].
    by rewrite display_message_recognized, IH. }
  split; [done|]. split; [by rewrite Hshown, length_fmap|].
  intros m text _ Hrole. unfold rendered, display_message. simpl.
  by rewrite Hrole.
Qed.

Lemma transcript_replay_witness :
  Forall recognized
    (messages (process_user_input "new question" (scripted scenario) session0).1)
  ∧ display_chat_messages
      (messages (process_user_input "new question" (scripted scenario) session0).1)
    = [chat_write "user" "earlier question";
       chat_write "assistant" "earlier answer";
       chat_write "user" "new question";
       chat_write "assistant" "Classification G06F 17/00 applies.";
       chat_caption "assistant" "lookup_ipc_code 실행 중..."].
Proof.
  assert (Forall recognized
            (messages (process_user_input "new question" (scripted scenario)
                         session0).1)) as Hall.
  { unfold recognized. simpl. solve_conforming. }
  split; [exact Hall|].
  rewrite (proj1 (transcript_replay _ Hall)). reflexivity.
Defined.

(** ** Session identifiers *)

Section UUIDText.

Local Open Scope N_scope.












End UUIDText.




(** * Further properties of the adapter *)

Lemma upto_app {A} (fault : A → option string) xs ys :
  upto fault (xs ++ ys)
  = upto fault xs ++ match first_fault fault xs with
                     | Some _ => []
                     | None => upto fault ys
                     end.
Proof.
  unfold first_fault. induction xs as [|x xs IH]; [done|].
  simpl. destruct (fault x); simpl; [done|]. f_equal. exact IH.
Qed.

Lemma first_fault_app {A} (fault : A → option string) xs ys :
  first_fault fault (xs ++ ys)
  = match first_fault fault xs with
    | Some e => Some e
    | None => first_fault fault ys
    end.
Proof.
  unfold first_fault. induction xs as [|x xs IH]; [done|].
  simpl. destruct (fault x); [done|]. exact IH.
Qed.

Lemma plain_no_final events text log : Forall plain events → final text log ∉ events.
Proof. rewrite Forall_forall. intros Hplain Hin. exact (Hplain _ Hin). Qed.

Lemma plain_no_error events e : Forall plain events → error e ∉ events.
Proof. rewrite Forall_forall. intros Hplain Hin. exact (Hplain _ Hin). Qed.

Lemma try_block_ext stream stream' :
  flat_map event_yield (upto event_fault (LangChain.events stream))
  = flat_map event_yield (upto event_fault (LangChain.events stream')) →
  stream_fault stream = stream_fault stream' →
  try_block stream = try_block stream'.
Proof. intros Hout Hfault. rewrite !try_block_spec. cbv zeta. by rewrite Hout, Hfault. Qed.

Lemma stream_agent_response_scripted agent user_input thread_id stream :
  try_block (stream_of agent user_input thread_id) = try_block stream →
  stream_agent_response agent user_input thread_id
  = stream_agent_response (scripted stream) user_input thread_id.
Proof.
  intros Hsame. unfold stream_agent_response, stream_of, scripted in *. simpl.
  by rewrite Hsame.
Qed.

(** What a final event says about the events before it. *)
Lemma final_yielded agent user_input thread_id text log :
  final text log ∈ yielded (stream_agent_response agent user_input thread_id) →
  Py.truthy text = true
  ∧ last (answers (yielded (stream_agent_response agent user_input thread_id)))
    = Some text
  ∧ log = tool_notice <$>
            tool_call_names (yielded (stream_agent_response agent user_input thread_id))
  ∧ ∀ e, error e ∉ yielded (stream_agent_response agent user_input thread_id).
Proof.
  rewrite stream_agent_response_spec. simpl.
  pose proof (try_block_plain (stream_of agent user_input thread_id)) as Hplain.
  pose proof (try_block_truthy (stream_of agent user_input thread_id)) as Htruthy.
  intros Hin. apply elem_of_app in Hin as [Hin|Hin].
  { by apply plain_no_final in Hin. }
  destruct (stream_fault _).
  { apply list_elem_of_singleton in Hin. discriminate Hin. }
  destruct (last (answers _)) as [text'|] eqn:Hlast; [|by apply elem_of_nil in Hin].
  apply list_elem_of_singleton in Hin. injection Hin as -> ->.
  rewrite answers_app, tool_call_names_app. simpl. rewrite !app_nil_r.
  repeat split; try done.
  - apply last_Some_elem_of in Hlast. rewrite Forall_forall in Htruthy. auto.
  - intros e He. apply elem_of_app in He as [He|He].
    + by apply plain_no_error in He.
    + apply list_elem_of_singleton in He. discriminate He.
Qed.

(** X1: whatever the stream, the generator yields a body of tool_call,
    tool_result and answer events followed by at most one closing event, a
    final event or an error event: never both, never twice, never before
    another event. *)
Theorem yields_body_then_one_closing agent user_input thread_id :
  ∃ body closing,
    yielded (stream_agent_response agent user_input thread_id) = body ++ closing
    ∧ Forall plain body
    ∧ (closing = []
       ∨ (∃ e, closing = [error e])
       ∨ (∃ text log, closing = [final text log])).
Proof.
  rewrite stream_agent_response_spec. simpl. eexists _, _.
  split; [done|]. split; [apply try_block_plain|].
  destruct (stream_fault _); [eauto|]. destruct (last (answers _)); eauto.
Qed.

(** X2: whenever the generator yields a final event, its text is not empty
    and is the text of the last answer event yielded, its log is one tool
    notice per tool_call event yielded, in order, and no error event is
    yielded in that cycle. *)
Theorem final_agrees_with_yielded agent user_input thread_id text log :
  final text log ∈ yielded (stream_agent_response agent user_input thread_id) →
  Py.truthy text = true
  ∧ last (answers (yielded (stream_agent_response agent user_input thread_id)))
    = Some text
  ∧ log = tool_notice <$>
            tool_call_names (yielded (stream_agent_response agent user_input thread_id))
  ∧ ∀ e, error e ∉ yielded (stream_agent_response agent user_input thread_id).
Proof. apply final_yielded. Qed.

Lemma final_agrees_with_yielded_witness :
  final "Classification G06F 17/00 applies." [tool_notice "lookup_ipc_code"]
    ∈ yielded (stream_agent_response (scripted scenario) "q" "t")
  ∧ Py.truthy "Classification G06F 17/00 applies." = true
  ∧ last (answers (yielded (stream_agent_response (scripted scenario) "q" "t")))
    = Some "Classification G06F 17/00 applies."
  ∧ [tool_notice "lookup_ipc_code"]
    = tool_notice <$>
        tool_call_names (yielded (stream_agent_response (scripted scenario) "q" "t"))
  ∧ ∀ e, error e ∉ yielded (stream_agent_response (scripted scenario) "q" "t").
Proof.
  assert (final "Classification G06F 17/00 applies." [tool_notice "lookup_ipc_code"]
            ∈ yielded (stream_agent_response (scripted scenario) "q" "t")) as Hin.
  { do 3 right. left. }
  split; [exact Hin|].
  exact (final_agrees_with_yielded (scripted scenario) "q" "t" _ _ Hin).
Defined.

Lemma plain_texts events :
  Forall plain events →
  Forall (λ text, Py.truthy text = true) (answers events) →
  Forall (λ event, match event with
                   | answer text | final text _ => Py.truthy text = true
                   | _ => True
                   end) events.
Proof.
  unfold answers. induction 1 as [|event events Hevent _ IH]; [done|].
  destruct event; try done; simpl; intros Htexts.
  - constructor; [done|]. by apply IH.
  - apply Forall_cons in Htexts as [Htext Htexts]. constructor; [done|]. by apply IH.
  - constructor; [done|]. by apply IH.
Qed.

(** X3: whatever the stream, no answer event and no final event carries an
    empty text: a reasoning turn with neither invocation nor text is passed
    over in silence. *)
Theorem texts_never_empty agent user_input thread_id :
  Forall (λ event, match event with
                   | answer text | final text _ => Py.truthy text = true
                   | _ => True
                   end)
    (yielded (stream_agent_response agent user_input thread_id)).
Proof.
  rewrite stream_agent_response_spec. simpl.
  pose proof (try_block_plain (stream_of agent user_input thread_id)) as Hplain.
  pose proof (try_block_truthy (stream_of agent user_input thread_id)) as Htruthy.
  apply Forall_app. split; [by apply plain_texts|].
  destruct (stream_fault _); [by repeat constructor|].
  destruct (last (answers _)) as [text|] eqn:Hlast; [|done].
  apply last_Some_elem_of in Hlast. rewrite Forall_forall in Htruthy.
  repeat constructor. auto.
Qed.

Lemma filter_plain events : Forall plain events → List.filter is_plain events = events.
Proof.
  induction 1 as [|event events Hevent _ IH]; [done|].
  destruct event; try done; simpl; by rewrite IH.
Qed.

Lemma yielded_body agent user_input thread_id :
  List.filter is_plain (yielded (stream_agent_response agent user_input thread_id))
  = flat_map event_yield
      (upto event_fault (LangChain.events (stream_of agent user_input thread_id))).
Proof.
  rewrite stream_agent_response_spec. simpl.
  rewrite List.filter_app, filter_plain by apply try_block_plain.
  destruct (stream_fault _); simpl; [by rewrite app_nil_r|].
  destruct (last (answers _)); simpl; by rewrite app_nil_r.
Qed.

(** X4: the adapter streams: when one stream continues another, with more
    raw events after those of the first, the tool_call, tool_result and
    answer events of the first run are the first such events of the second
    run, unchanged and in the same order, however either stream ends. *)
Theorem more_events_extend_the_body
    agent agent' user_input user_input' thread_id thread_id' more :
  LangChain.events (stream_of agent' user_input' thread_id')
  = LangChain.events (stream_of agent user_input thread_id) ++ more →
  List.filter is_plain (yielded (stream_agent_response agent user_input thread_id))
    `prefix_of`
  List.filter is_plain (yielded (stream_agent_response agent' user_input' thread_id')).
Proof.
  intros Hmore. rewrite !yielded_body, Hmore, upto_app, flat_map_app.
  by eexists.
Qed.

Lemma more_events_extend_the_body_witness :
  LangChain.events (stream_of (scripted scenario) "q" "t")
  = LangChain.events (stream_of (scripted broken_scenario) "q" "t")
    ++ [lookup_output; classification]
  ∧ List.filter is_plain
      (yielded (stream_agent_response (scripted broken_scenario) "q" "t"))
      `prefix_of`
    List.filter is_plain (yielded (stream_agent_response (scripted scenario) "q" "t")).
Proof.
  split; [reflexivity|].
  exact (more_events_extend_the_body (scripted broken_scenario) (scripted scenario)
           "q" "q" "t" "t" [lookup_output; classification] eq_refl).
Defined.

Lemma inert_item_silent item :
  inert_item item → item_yield item = [] ∧ item_fault item = None.
Proof.
  destruct item as [node value]. unfold inert_item, item_yield, item_fault. simpl.
  intros [Hnone|(Hagent & Htools & Hmessages)].
  - by rewrite Hnone.
  - destruct (LangChain.messages value) as [[|m l]|]; try done.
    split; [|done]. simpl. destruct (last (m :: l)); [|done].
    by repeat case_decide.
Qed.

Lemma inert_silent event :
  inert event → event_yield event = [] ∧ event_fault event = None.
Proof.
  unfold inert, event_yield, event_fault, first_fault.
  induction 1 as [|item event Hitem _ [IH1 IH2]]; [done|].
  apply inert_item_silent in Hitem as [Hyield Hfault].
  simpl. rewrite Hfault, Hyield. simpl. split; [exact IH1 | exact IH2].
Qed.

Lemma first_fault_cons {A} (fault : A → option string) x xs :
  first_fault fault (x :: xs)
  = match fault x with
    | Some e => Some e
    | None => first_fault fault xs
    end.
Proof. unfold first_fault. simpl. by destruct (fault x). Qed.

Lemma upto_cons {A} (fault : A → option string) x xs :
  upto fault (x :: xs)
  = x :: match fault x with
         | Some _ => []
         | None => upto fault xs
         end.
Proof. done. Qed.

Lemma skip_silent pre event post :
  event_yield event = [] → event_fault event = None →
  flat_map event_yield (upto event_fault (pre ++ event :: post))
  = flat_map event_yield (upto event_fault (pre ++ post))
  ∧ first_fault event_fault (pre ++ event :: post)
    = first_fault event_fault (pre ++ post).
Proof.
  intros Hyield Hfault.
  rewrite !upto_app, !first_fault_app, !flat_map_app, upto_cons, first_fault_cons.
  destruct (first_fault event_fault pre); [done|].
  rewrite Hfault. cbn [flat_map]. by rewrite Hyield.
Qed.

(** X5: a raw event the adapter does not recognise is passed over in
    silence: when every item of an event lacks a message list, or belongs to
    a stage other than "agent" and "tools" and has a last message, the run
    yields what it would yield had the event not been in the stream. *)
Theorem inert_event_is_skipped agent user_input thread_id pre event post :
  LangChain.events (stream_of agent user_input thread_id) = pre ++ event :: post →
  inert event →
  stream_agent_response agent user_input thread_id
  = stream_agent_response
      (scripted {| LangChain.events := pre ++ post;
                   LangChain.ending :=
                     LangChain.ending (stream_of agent user_input thread_id) |})
      user_input thread_id.
Proof.
  intros Hevents Hinert. apply stream_agent_response_scripted.
  apply inert_silent in Hinert as [Hyield Hfault].
  destruct (skip_silent pre event post Hyield Hfault) as [Hout Hfirst].
  apply try_block_ext; unfold stream_fault;
    cbn [LangChain.events LangChain.ending]; rewrite Hevents;
    [exact Hout | by rewrite Hfirst].
Qed.

Lemma inert_event_is_skipped_witness :
  LangChain.events (stream_of (scripted noisy_scenario) "q" "t")
  = [lookup_request; lookup_output] ++ checkpoint :: [classification]
  ∧ inert checkpoint
  ∧ stream_agent_response (scripted noisy_scenario) "q" "t"
    = stream_agent_response (scripted scenario) "q" "t".
Proof.
  assert (inert checkpoint) as Hinert.
  { repeat constructor; simpl; discriminate. }
  split; [reflexivity|]. split; [exact Hinert|].
  exact (inert_event_is_skipped (scripted noisy_scenario) "q" "t"
           [lookup_request; lookup_output] checkpoint [classification]
           eq_refl Hinert).
Defined.

Lemma hollow_event_fault event :
  Exists hollow_item event → event_fault event = Some Py.IndexError.
Proof.
  unfold event_fault, first_fault, hollow_item.
  induction event as [|item event IH]; intros Hex.
  - by apply Exists_nil in Hex.
  - simpl. unfold item_fault at 1.
    destruct (LangChain.messages item.2) as [[|m l]|] eqn:Hm; try done;
      apply Exists_cons in Hex as [Hhere|Hlater];
      first [congruence | by apply IH].
Qed.

Lemma no_empty_list_no_fault events :
  Forall (Forall nonempty_messages) events →
  upto event_fault events = events ∧ first_fault event_fault events = None.
Proof.
  intros Hall. apply upto_all. eapply Forall_impl; [done|].
  intros event Hne. by apply conforming_no_fault.
Qed.

(** X6: an empty message list ends the cycle, whatever the stage of the item
    that holds it: when the events before it have no such list, the run ends
    with the error event of the IndexError, and yields what it would yield
    did the stream stop after that event; what comes later in the stream is
    not read. *)
Theorem empty_message_list_ends_the_cycle agent user_input thread_id pre event post :
  LangChain.events (stream_of agent user_input thread_id) = pre ++ event :: post →
  Forall (Forall nonempty_messages) pre →
  Exists hollow_item event →
  last (yielded (stream_agent_response agent user_input thread_id))
  = Some (error Py.IndexError)
  ∧ stream_agent_response agent user_input thread_id
    = stream_agent_response
        (scripted {| LangChain.events := pre ++ [event];
                     LangChain.ending := LangChain.StopIteration |})
        user_input thread_id.
Proof.
  intros Hevents Hpre Hhollow.
  apply no_empty_list_no_fault in Hpre as [Hupto Hnone].
  apply hollow_event_fault in Hhollow.
  assert (stream_fault (stream_of agent user_input thread_id) = Some Py.IndexError)
    as Hfault.
  { unfold stream_fault. rewrite Hevents, first_fault_app, Hnone.
    unfold first_fault. simpl. by rewrite Hhollow. }
  split.
  - rewrite stream_agent_response_spec. simpl. by rewrite Hfault, last_snoc.
  - apply stream_agent_response_scripted, try_block_ext.
    + simpl. rewrite Hevents, !upto_app, Hnone. simpl. by rewrite Hhollow.
    + rewrite Hfault. unfold stream_fault. simpl.
      rewrite first_fault_app, Hnone. unfold first_fault. simpl. by rewrite Hhollow.
Qed.

Lemma empty_message_list_ends_the_cycle_witness :
  LangChain.events (stream_of (scripted hollow_scenario) "q" "t")
  = [lookup_request] ++ hollow_checkpoint :: [classification]
  ∧ Forall (Forall nonempty_messages) [lookup_request]
  ∧ Exists hollow_item hollow_checkpoint
  ∧ yielded (stream_agent_response (scripted hollow_scenario) "q" "t")
    = [tool_call "lookup_ipc_code"; error "list index out of range"].
Proof.
  assert (Forall (Forall nonempty_messages) [lookup_request]) as Hpre.
  { repeat constructor. discriminate. }
  assert (Exists hollow_item hollow_checkpoint) as Hhollow.
  { by left. }
  split; [reflexivity|]. split; [exact Hpre|]. split; [exact Hhollow|].
  destruct (empty_message_list_ends_the_cycle (scripted hollow_scenario) "q" "t"
              [lookup_request] hollow_checkpoint [classification]
              eq_refl Hpre Hhollow) as [_ ->].
  reflexivity.
Defined.

Lemma same_yield_in_context pre event event' post :
  event_yield event = event_yield event' →
  event_fault event = event_fault event' →
  flat_map event_yield (upto event_fault (pre ++ event :: post))
  = flat_map event_yield (upto event_fault (pre ++ event' :: post))
  ∧ first_fault event_fault (pre ++ event :: post)
    = first_fault event_fault (pre ++ event' :: post).
Proof.
  intros Hyield Hfault.
  rewrite !upto_app, !first_fault_app, !flat_map_app, !upto_cons, !first_fault_cons.
  destruct (first_fault event_fault pre); [done|].
  rewrite Hfault. cbn [flat_map]. by rewrite Hyield.
Qed.

Lemma stream_fault_ext stream stream' :
  first_fault event_fault (LangChain.events stream)
  = first_fault event_fault (LangChain.events stream') →
  LangChain.ending stream = LangChain.ending stream' →
  stream_fault stream = stream_fault stream'.
Proof. intros Hfirst Hend. unfold stream_fault. by rewrite Hfirst, Hend. Qed.

Lemma swap_in_context {A} (yield : A → list adapted_event)
    (fault : A → option string) pre x y post :
  yield x = yield y → fault x = fault y →
  flat_map yield (upto fault (pre ++ x :: post))
  = flat_map yield (upto fault (pre ++ y :: post))
  ∧ first_fault fault (pre ++ x :: post) = first_fault fault (pre ++ y :: post).
Proof.
  intros Hyield Hfault.
  rewrite !upto_app, !first_fault_app, !flat_map_app, !upto_cons, !first_fault_cons.
  destruct (first_fault fault pre); [done|].
  rewrite Hfault. cbn [flat_map]. by rewrite Hyield.
Qed.

(** X7: a request for a tool silences the text of the same message: when, in
    any raw event, the last message of the payload of the "agent" stage
    requests an invocation, whatever text it carries is neither yielded as
    an answer nor kept for the final event; the run yields the same with any
    other text in its place, whatever the other items of the event and the
    earlier messages of the payload. *)
Theorem tool_request_silences_text
    agent user_input thread_id (pre post : list LangChain.Event)
    (before after : LangChain.Event) earlier m text :
  LangChain.events (stream_of agent user_input thread_id)
  = pre ++ (before
            ++ ("agent", {| LangChain.messages := Some (earlier ++ [m]) |}) :: after)
        :: post →
  LangChain.tool_calls m ≠ [] →
  stream_agent_response agent user_input thread_id
  = stream_agent_response
      (scripted
         {| LangChain.events :=
              pre ++ (before
                      ++ ("agent",
                          {| LangChain.messages :=
                               Some (earlier
                                     ++ [{| LangChain.content := text;
                                            LangChain.tool_calls :=
                                              LangChain.tool_calls m |}]) |})
                         :: after)
                  :: post;
            LangChain.ending :=
              LangChain.ending (stream_of agent user_input thread_id) |})
      user_input thread_id.
Proof.
  intros Hevents Hcalls. apply stream_agent_response_scripted.
  set (item := ("agent", {| LangChain.messages := Some (earlier ++ [m]) |})).
  set (item' := ("agent",
                 {| LangChain.messages :=
                      Some (earlier ++ [{| LangChain.content := text;
                                           LangChain.tool_calls :=
                                             LangChain.tool_calls m |}]) |})).
  assert (item_yield item = item_yield item' ∧ item_fault item = item_fault item')
    as [Hyield Hfault].
  { unfold item_yield, item_fault, first_invocation, item, item'. simpl.
    rewrite !last_snoc. simpl. split.
    - by destruct (LangChain.tool_calls m).
    - by destruct earlier. }
  destruct (swap_in_context item_yield item_fault before item item' after
              Hyield Hfault) as [Hitems Hfirst].
  destruct (swap_in_context (A := LangChain.Event) event_yield event_fault pre
              (before ++ item :: after) (before ++ item' :: after) post
              Hitems Hfirst) as [Hout Hfirst'].
  subst item item'.
  apply try_block_ext.
  - cbn [LangChain.events]. rewrite Hevents. exact Hout.
  - apply stream_fault_ext; [|done].
    cbn [LangChain.events]. rewrite Hevents. exact Hfirst'.
Qed.

Lemma tool_request_silences_text_witness :
  LangChain.events (stream_of (scripted chatty_scenario) "q" "t")
  = [] ++ ([("checkpoint", {| LangChain.messages := None |})]
           ++ ("agent",
               {| LangChain.messages :=
                    Some ([{| LangChain.content := "Thinking.";
                              LangChain.tool_calls := [] |}]
                          ++ [chatty_request]) |})
              :: [])
       :: [lookup_output; classification]
  ∧ LangChain.tool_calls chatty_request ≠ []
  ∧ yielded (stream_agent_response (scripted chatty_scenario) "q" "t")
    = [tool_call "lookup_ipc_code"; tool_result 3;
       answer "Classification G06F 17/00 applies.";
       final "Classification G06F 17/00 applies." [tool_notice "lookup_ipc_code"]].
Proof.
  assert (LangChain.tool_calls chatty_request ≠ []) as Hcalls by discriminate.
  split; [reflexivity|]. split; [exact Hcalls|].
  rewrite (tool_request_silences_text (scripted chatty_scenario) "q" "t" []
             [lookup_output; classification]
             [("checkpoint", {| LangChain.messages := None |})] []
             [{| LangChain.content := "Thinking."; LangChain.tool_calls := [] |}]
             chatty_request EmptyString eq_refl Hcalls).
  reflexivity.
Defined.

(** * Further properties of the response cycle *)

(** What a cycle appends: the message of the user, then nothing or an
    answer with its notices; the identifier is left alone. *)
Lemma process_user_input_tail user_input agent ss :
  thread_id (process_user_input user_input agent ss).1 = thread_id ss
  ∧ ∃ tail,
      messages (process_user_input user_input agent ss).1
      = messages ss ++ user_message user_input :: tail
      ∧ (tail = []
         ∨ ∃ reply names,
             Py.truthy reply = true
             ∧ tail = assistant_message reply :: (tool_notice <$> names)).
Proof.
  unfold process_user_input. simpl.
  destruct (for_event _ _ _ _) as [page'|final_answer' tool_calls' page'] eqn:Hrun.
  { split; [done|]. exists []. split; [done|]. by left. }
  apply for_event_exhausted in Hrun as [_ ->]. simpl.
  rewrite never_raises. destruct (Py.truthy final_answer') eqn:Htruthy.
  - cbn [fst]. destruct (foldl_append
      (append (append ss (user_message user_input)) (assistant_message final_answer'))
      (tool_notice <$> tool_call_names
         (yielded (stream_agent_response agent user_input (thread_id ss)))))
      as [Hmessages Hid].
    unfold user_message, assistant_message in *. rewrite Hmessages, Hid. simpl.
    split; [done|]. eexists. split; [by rewrite <- !app_assoc|]. right. eauto.
  - split; [done|]. exists []. split; [done|]. by left.
Qed.

(** X8: a response cycle only appends: the messages stored before it are
    kept, in place and unchanged, the message of the user comes right after
    them whatever the agent does, and the session identifier is the one
    held before. *)
Theorem cycle_only_appends user_input agent ss :
  messages ss `prefix_of` messages (process_user_input user_input agent ss).1
  ∧ messages (process_user_input user_input agent ss).1 !! length (messages ss)
    = Some (user_message user_input)
  ∧ thread_id (process_user_input user_input agent ss).1 = thread_id ss.
Proof.
  destruct (process_user_input_tail user_input agent ss) as [Hid (tail & -> & _)].
  split; [by eexists|]. split; [|done].
  by rewrite lookup_app_r, Nat.sub_diag.
Qed.

(** X9: a response cycle does not read the transcript: in two sessions with
    the same identifier, the same input to the same agent shows the same
    page and appends the same messages, whatever each session has stored. *)
Theorem cycle_ignores_transcript user_input agent ss ss' :
  thread_id ss = thread_id ss' →
  cycle_page user_input agent ss = cycle_page user_input agent ss'
  ∧ ∃ added,
      messages (process_user_input user_input agent ss).1 = messages ss ++ added
      ∧ messages (process_user_input user_input agent ss').1 = messages ss' ++ added.
Proof.
  intros Hid. unfold cycle_page, process_user_input. simpl. rewrite <- Hid.
  destruct (for_event _ _ _ _) as [page'|final_answer' tool_calls' page'].
  { split; [done|]. by eexists. }
  destruct (raised _); [split; [done|]; by eexists|].
  destruct (Py.truthy final_answer'); [|split; [done|]; by eexists].
  cbn [fst snd]. rewrite !(proj1 (foldl_append _ _)). simpl.
  split; [done|]. eexists. split; by rewrite <- !app_assoc.
Qed.

Lemma cycle_ignores_transcript_witness :
  thread_id session0 = thread_id (start_new_conversation session0 0)
  ∧ cycle_page "new question" (scripted scenario) session0
    = cycle_page "new question" (scripted scenario) (start_new_conversation session0 0)
  ∧ ∃ added,
      messages (process_user_input "new question" (scripted scenario) session0).1
      = messages session0 ++ added
      ∧ messages (process_user_input "new question" (scripted scenario)
                    (start_new_conversation session0 0)).1
        = messages (start_new_conversation session0 0) ++ added.
Proof.
  split; [reflexivity|].
  exact (cycle_ignores_transcript "new question" (scripted scenario) session0
           (start_new_conversation session0 0) eq_refl).
Defined.

(** The messages of a cycle without an error event. *)
Lemma fault_free_cycle_messages user_input agent ss :
  (∀ m, error m ∉ yielded (stream_agent_response agent user_input (thread_id ss))) →
  messages (process_user_input user_input agent ss).1
  = messages ss ++ user_message user_input ::
      match received_answer
              (yielded (stream_agent_response agent user_input (thread_id ss))) with
      | Some text =>
          assistant_message text ::
            (tool_notice <$>
               tool_call_names
                 (yielded (stream_agent_response agent user_input (thread_id ss))))
      | None => []
      end.
Proof.
  intros Hno. unfold process_user_input. simpl.
  destruct (for_event_no_error _ EmptyString [] [chat_write "user" user_input] Hno)
    as (final_answer' & tool_calls' & page' & Hrun).
  rewrite Hrun, never_raises.
  apply for_event_exhausted in Hrun as [-> ->]. simpl.
  pose proof (received_answer_truthy agent user_input (thread_id ss)) as Htruthy.
  destruct (received_answer _) as [text|]; simpl; [|done].
  rewrite (Htruthy text eq_refl). cbn [fst].
  rewrite (proj1 (foldl_append _ _)). simpl. by rewrite <- !app_assoc.
Qed.

Lemma answers_yielded agent user_input thread_id :
  answers (yielded (stream_agent_response agent user_input thread_id))
  = answers (flat_map event_yield
               (upto event_fault
                  (LangChain.events (stream_of agent user_input thread_id)))).
Proof.
  rewrite stream_agent_response_spec. simpl. rewrite answers_app.
  destruct (stream_fault _); simpl; [by rewrite app_nil_r|].
  destruct (last (answers _)); simpl; by rewrite app_nil_r.
Qed.

Lemma final_is_received agent user_input thread_id text log :
  final text log ∈ yielded (stream_agent_response agent user_input thread_id) →
  received_answer (yielded (stream_agent_response agent user_input thread_id))
  = Some text.
Proof.
  intros Hin. apply final_yielded in Hin as (_ & Hlast & _ & _).
  by rewrite received_answer_adapter, <- answers_yielded.
Qed.

(** X10: the two logs of a cycle agree: the tool notices [process_user_input]
    rebuilds from the tool_call events and stores are the log the final
    event carries, which it does not read; the answer stored is the text of
    the final event. *)
Theorem stored_cycle_is_the_final_event user_input agent ss text log :
  final text log ∈ yielded (stream_agent_response agent user_input (thread_id ss)) →
  messages (process_user_input user_input agent ss).1
  = messages ss ++ user_message user_input :: assistant_message text :: log.
Proof.
  intros Hin. pose proof (final_is_received _ _ _ _ _ Hin) as Hreceived.
  apply final_yielded in Hin as (_ & _ & -> & Hno).
  by rewrite fault_free_cycle_messages, Hreceived.
Qed.

Lemma stored_cycle_is_the_final_event_witness :
  final "Classification G06F 17/00 applies." [tool_notice "lookup_ipc_code"]
    ∈ yielded (stream_agent_response (scripted scenario) "new question"
                 (thread_id session0))
  ∧ messages (process_user_input "new question" (scripted scenario) session0).1
    = messages session0 ++
        user_message "new question"
        :: assistant_message "Classification G06F 17/00 applies."
        :: [tool_notice "lookup_ipc_code"].
Proof.
  assert (final "Classification G06F 17/00 applies." [tool_notice "lookup_ipc_code"]
            ∈ yielded (stream_agent_response (scripted scenario) "new question"
                         (thread_id session0))) as Hin.
  { do 3 right. left. }
  split; [exact Hin|].
  exact (stored_cycle_is_the_final_event "new question" (scripted scenario)
           session0 _ _ Hin).
Defined.

(** X11: a transcript made of whole response cycles stays so: after a cycle
    the stored messages are again a sequence of cycles, each the message of
    the user followed, when it was answered, by a non-empty answer and the
    notices of its tools. *)
Theorem cycle_keeps_cycles user_input agent ss :
  cycles (messages ss) →
  cycles (messages (process_user_input user_input agent ss).1).
Proof.
  intros Hcycles.
  destruct (process_user_input_tail user_input agent ss)
    as [_ (tail & -> & [->|(reply & names & Htruthy & ->)])].
  - by constructor.
  - by constructor.
Qed.

Lemma cycle_keeps_cycles_witness :
  cycles (messages (start_new_conversation session0 0))
  ∧ cycles (messages (process_user_input "new question" (scripted scenario)
                        (start_new_conversation session0 0)).1).
Proof.
  assert (cycles (messages (start_new_conversation session0 0))) as Hcycles
    by constructor.
  split; [exact Hcycles|].
  exact (cycle_keeps_cycles "new question" (scripted scenario)
           (start_new_conversation session0 0) Hcycles).
Defined.

(** ** What the page shows *)

Lemma for_event_page events final_answer tool_calls page :
  exit_page (for_event events final_answer tool_calls page)
  = page ++ flat_map widgets_of (upto error_of events).
Proof.
  revert final_answer tool_calls page.
  induction events as [|event events IH]; intros final_answer tool_calls page.
  - simpl. by rewrite app_nil_r.
  - destruct event; simpl; by rewrite ?IH, <- ?app_assoc.
Qed.

Lemma plain_error_of events :
  Forall plain events → Forall (λ event, error_of event = None) events.
Proof. intros Hplain. eapply Forall_impl; [done|]. by intros []. Qed.

Lemma upto_error_yielded agent user_input thread_id :
  upto error_of (yielded (stream_agent_response agent user_input thread_id))
  = yielded (stream_agent_response agent user_input thread_id).
Proof.
  rewrite stream_agent_response_spec. simpl.
  pose proof (try_block_plain (stream_of agent user_input thread_id)) as Hplain.
  apply plain_error_of, upto_all in Hplain as [Hupto Hnone].
  rewrite upto_app, Hupto, Hnone. f_equal.
  destruct (stream_fault _); [done|]. by destruct (last (answers _)).
Qed.

(** The page of a cycle, read off the adapted events. *)
Lemma cycle_page_spec user_input agent ss :
  cycle_page user_input agent ss
  = chat_write "user" user_input
    :: flat_map widgets_of
         (yielded (stream_agent_response agent user_input (thread_id ss))).
Proof.
  unfold cycle_page, process_user_input. simpl.
  pose proof (for_event_page
                (yielded (stream_agent_response agent user_input (thread_id ss)))
                EmptyString [] [chat_write "user" user_input]) as Hpage.
  rewrite upto_error_yielded in Hpage.
  destruct (for_event _ _ _ _); simpl in Hpage; [done|].
  rewrite never_raises. by destruct (Py.truthy _).
Qed.

Lemma omap_widgets {C} (f : widget → option C) (g : adapted_event → option C) events :
  (∀ event, omap f (widgets_of event) = option_list (g event)) →
  omap f (flat_map widgets_of events) = omap g events.
Proof.
  intros Hfg. rewrite omap_flat_map, <- flat_map_option_list.
  induction events as [|event events IH]; simpl; [done|]. by rewrite Hfg, IH.
Qed.

Lemma response_slot_page user_input agent ss :
  response_slot (cycle_page user_input agent ss)
  = received_answer (yielded (stream_agent_response agent user_input (thread_id ss))).
Proof.
  rewrite cycle_page_spec. unfold response_slot, received_answer. f_equal.
  apply (omap_widgets (λ w, match w with
                            | response_placeholder_write text => Some text
                            | _ => None
                            end)).
  by intros [].
Qed.

Lemma status_plain events :
  Forall plain events →
  omap (λ event, match event with
                 | tool_call _ | tool_result _ => Some (progress_caption event)
                 | final _ _ => Some None
                 | _ => None
                 end) events
  = Some <$> omap progress_caption events.
Proof.
  induction 1 as [|event events Hevent _ IH]; [done|].
  destruct event; try done; simpl; first [exact IH | f_equal; exact IH].
Qed.

Lemma tool_slot_page user_input agent ss :
  tool_slot (cycle_page user_input agent ss)
  = default None
      (last (omap (λ event, match event with
                            | tool_call _ | tool_result _ => Some (progress_caption event)
                            | final _ _ => Some None
                            | _ => None
                            end)
               (yielded (stream_agent_response agent user_input (thread_id ss))))).
Proof.
  rewrite cycle_page_spec. unfold tool_slot. do 2 f_equal.
  apply (omap_widgets (λ w, match w with
                            | tool_placeholder_caption text => Some (Some text)
                            | tool_placeholder_empty => Some None
                            | _ => None
                            end)).
  by intros [].
Qed.

(** X12: what the two placeholders show when a cycle is over.  The answer
    placeholder shows the last answer received, if any.  The tool placeholder
    is emptied when the cycle closes with a final event; when it does not,
    for want of an answer or because of an exception, it is left showing the
    last progress caption, that of the last tool_call or tool_result event. *)
Theorem placeholders_at_the_end user_input agent ss :
  response_slot (cycle_page user_input agent ss)
  = received_answer (yielded (stream_agent_response agent user_input (thread_id ss)))
  ∧ (∀ text log,
       final text log ∈ yielded (stream_agent_response agent user_input (thread_id ss)) →
       tool_slot (cycle_page user_input agent ss) = None)
  ∧ ((∀ text log,
        final text log ∉ yielded (stream_agent_response agent user_input (thread_id ss))) →
     tool_slot (cycle_page user_input agent ss)
     = last (omap progress_caption
               (yielded (stream_agent_response agent user_input (thread_id ss))))).
Proof.
  split; [apply response_slot_page|].
  rewrite tool_slot_page, stream_agent_response_spec. simpl.
  pose proof (try_block_plain (stream_of agent user_input (thread_id ss))) as Hplain.
  rewrite !omap_app, status_plain by done.
  split.
  - intros text log Hin. apply elem_of_app in Hin as [Hin|Hin].
    { by apply plain_no_final in Hin. }
    destruct (stream_fault _).
    { apply list_elem_of_singleton in Hin. discriminate Hin. }
    destruct (last (answers _)); [|by apply elem_of_nil in Hin].
    simpl. by rewrite last_snoc.
  - intros Hno. destruct (stream_fault _); simpl.
    + rewrite !app_nil_r, fmap_last. by destruct (last _).
    + destruct (last (answers _)); simpl.
      * exfalso. eapply Hno. apply elem_of_app. right. by left.
      * rewrite !app_nil_r, fmap_last. by destruct (last _).
Qed.

(** X13: when consuming the stream raises, the page ends with the error
    notice that carries the description of the exception; an answer shown
    before the exception stays in the answer placeholder, although the store
    receives the message of the user only. *)
Theorem fault_is_shown_last user_input agent ss e :
  stream_fault (stream_of agent user_input (thread_id ss)) = Some e →
  last (cycle_page user_input agent ss)
  = Some (st_error ("오류가 발생했습니다: " +:+ e))
  ∧ response_slot (cycle_page user_input agent ss)
    = last (answers (yielded (stream_agent_response agent user_input (thread_id ss))))
  ∧ messages (process_user_input user_input agent ss).1
    = messages ss ++ [user_message user_input].
Proof.
  intros Hfault. split; [|split].
  - rewrite cycle_page_spec, stream_agent_response_spec. simpl.
    rewrite Hfault, flat_map_app. simpl.
    by rewrite app_comm_cons, last_snoc.
  - by rewrite response_slot_page, received_answer_adapter, answers_yielded.
  - assert (error e ∈ yielded (stream_agent_response agent user_input (thread_id ss)))
      as Hin.
    { rewrite stream_agent_response_spec. simpl. rewrite Hfault.
      apply elem_of_app. right. by left. }
    unfold process_user_input. simpl.
    by destruct (for_event_error _ e EmptyString [] [chat_write "user" user_input] Hin)
      as [page' ->].
Qed.

Lemma fault_is_shown_last_witness :
  stream_fault (stream_of (scripted late_fault_scenario) "new question"
                  (thread_id session0))
  = Some "connection reset"
  ∧ last (cycle_page "new question" (scripted late_fault_scenario) session0)
    = Some (st_error ("오류가 발생했습니다: " +:+ "connection reset"))
  ∧ response_slot (cycle_page "new question" (scripted late_fault_scenario) session0)
    = last (answers (yielded (stream_agent_response (scripted late_fault_scenario)
                                "new question" (thread_id session0))))
  ∧ messages (process_user_input "new question" (scripted late_fault_scenario)
                session0).1
    = messages session0 ++ [user_message "new question"].
Proof.
  split; [reflexivity|].
  exact (fault_is_shown_last "new question" (scripted late_fault_scenario) session0
           "connection reset" eq_refl).
Defined.

Example late_fault_keeps_answer_on_page :
  response_slot (cycle_page "new question" (scripted late_fault_scenario) session0)
  = Some "Classification G06F 17/00 applies.".
Proof. reflexivity. Qed.

Example unanswered_cycle_keeps_caption :
  tool_slot (cycle_page "new question" (scripted unanswered_scenario) session0)
  = Some "데이터 수신 완료 (3 글자)".
Proof. reflexivity. Qed.

(** * Further properties of the replay *)

Lemma display_message_unrecognized m : ¬ recognized m → display_message m = [].
Proof.
  unfold recognized, display_message. intros Hrole.
  repeat case_decide; try done; exfalso; apply Hrole;
    match goal with H : role m = _ |- _ => rewrite H end; solve_conforming.
Qed.

Lemma display_recognized ms :
  Forall recognized ms → display_chat_messages ms = rendered <$> ms.
Proof.
  induction 1 as [|m ms Hm _ IH]; simpl; [done|].
  by rewrite display_message_recognized, IH.
Qed.

(** X14: the replay passes over, without any error, the messages whose role
    is none of the three it knows: for every transcript it shows the entries
    of the messages with a recognized role, in the order stored, and nothing
    for the others. *)
Theorem replay_skips_unrecognized_roles ms :
  display_chat_messages ms
  = rendered <$> filter (λ m, role m ∈ ["user"; "assistant"; "tool"]) ms.
Proof.
  induction ms as [|m ms IH]; [done|].
  rewrite filter_cons. simpl. rewrite IH. case_decide as Hrole.
  - by rewrite display_message_recognized.
  - by rewrite display_message_unrecognized.
Qed.

Lemma cycles_messages ms :
  cycles ms →
  Forall (λ m, recognized m ∧ (role m = "tool" → ∃ name, m = tool_notice name)) ms.
Proof.
  assert (∀ text, recognized (user_message text)
                  ∧ (role (user_message text) = "tool" →
                     ∃ name, user_message text = tool_notice name)) as Huser.
  { intros text. split; [|discriminate]. unfold recognized. simpl. solve_conforming. }
  induction 1 as [|ms text _ IH|ms text reply names _ IH _]; [done|..].
  - apply Forall_app. split; [done|]. by repeat constructor.
  - apply Forall_app. split; [done|]. repeat apply Forall_cons_2; [done|..].
    + split; [|discriminate]. unfold recognized. simpl. solve_conforming.
    + apply Forall_fmap, Forall_true. intros name.
      split; [apply recognized_tool_notice|]. by eexists.
Qed.

(** X15: the replay of a transcript made of response cycles shows one entry
    per message, and a tool notice, stored with the content that names its
    tool, is replayed as the running indicator of that same tool: the
    default label of the replay is never used. *)
Theorem replay_of_cycles ms :
  cycles ms →
  display_chat_messages ms = rendered <$> ms
  ∧ ∀ i m,
      ms !! i = Some m → role m = "tool" →
      ∃ name,
        content m = "도구 실행: " +:+ name
        ∧ display_chat_messages ms !! i
          = Some (chat_caption "assistant" (name +:+ " 실행 중...")).
Proof.
  intros Hcycles. apply cycles_messages in Hcycles.
  assert (display_chat_messages ms = rendered <$> ms) as Hshown.
  { apply display_recognized. eapply Forall_impl; [done|]. by intros m [Hm _]. }
  split; [done|]. intros i m Hi Hrole.
  rewrite Forall_lookup in Hcycles. destruct (Hcycles i m Hi) as [_ Hnotice].
  destruct (Hnotice Hrole) as [name ->]. exists name. split; [done|].
  by rewrite Hshown, list_lookup_fmap, Hi.
Qed.

Lemma replay_of_cycles_witness :
  cycles (messages (process_user_input "new question" (scripted scenario)
                      (start_new_conversation session0 0)).1)
  ∧ display_chat_messages
      (messages (process_user_input "new question" (scripted scenario)
                   (start_new_conversation session0 0)).1)
    = [chat_write "user" "new question";
       chat_write "assistant" "Classification G06F 17/00 applies.";
       chat_caption "assistant" "lookup_ipc_code 실행 중..."].
Proof.
  assert (cycles (messages (process_user_input "new question" (scripted scenario)
                              (start_new_conversation session0 0)).1)) as Hcycles.
  { apply (cycles_answered [] "new question" "Classification G06F 17/00 applies."
             ["lookup_ipc_code"]); [constructor | reflexivity]. }
  split; [exact Hcycles|].
  rewrite (proj1 (replay_of_cycles _ Hcycles)). reflexivity.
Defined.

(** * Properties of a run of the script *)

Lemma initialize_store_of ss urandom :
  initialize_session_state (store_of ss) urandom = ss.
Proof. by destruct ss. Qed.

Lemma chat_of_shown ws : chat_of (shown <$> ws) = ws.
Proof. unfold chat_of. induction ws as [|w ws IH]; [done|]. simpl. f_equal. exact IH. Qed.

Lemma chat_of_app screen screen' :
  chat_of (screen ++ screen') = chat_of screen ++ chat_of screen'.
Proof. apply omap_app. Qed.

(** X16: a run without interaction keeps the session: when the button is not
    pressed and the chat input returns nothing, or an empty text, a run over
    the store of a session leaves its messages and its identifier as they
    were, whatever random bytes are at hand, asks for no rerun, and the
    widgets of the chat it shows are exactly the replay of the transcript:
    the same entries, as many, in the same order. *)
Theorem idle_run_keeps_session agent ss chat_input urandom urandom' :
  from_option Py.truthy false chat_input = false →
  state (main agent (store_of ss) false chat_input urandom urandom') = ss
  ∧ rerun (main agent (store_of ss) false chat_input urandom urandom') = false
  ∧ chat_of (screen (main agent (store_of ss) false chat_input urandom urandom'))
    = display_chat_messages (messages ss).
Proof.
  intros Hidle. unfold main. rewrite initialize_store_of.
  destruct chat_input as [user_input|]; simpl in Hidle; [rewrite Hidle|];
    cbn [state rerun screen]; (split; [done|]); (split; [done|]);
    rewrite !chat_of_app, chat_of_shown; simpl; by rewrite app_nil_r.
Qed.

Lemma idle_run_keeps_session_witness :
  from_option Py.truthy false (Some EmptyString) = false
  ∧ state (main (scripted scenario) (store_of session0) false (Some EmptyString) 1 2)
    = session0
  ∧ rerun (main (scripted scenario) (store_of session0) false (Some EmptyString) 1 2)
    = false
  ∧ chat_of (screen (main (scripted scenario) (store_of session0) false
                       (Some EmptyString) 1 2))
    = display_chat_messages (messages session0).
Proof.
  split; [reflexivity|].
  exact (idle_run_keeps_session (scripted scenario) session0 (Some EmptyString)
           1 2 eq_refl).
Defined.

(** X17: the button of the sidebar halts the run: when it is pressed the
    session is left with no message and with the identifier made from the
    fresh random bytes, a rerun is asked for, and nothing of the chat is
    shown or processed in that run, whatever the chat input returns and
    whatever the agent; the run that follows, without interaction, keeps
    that session, counts no message and replays nothing. *)
Theorem new_conversation_halts_the_run
    agent agent' store chat_input chat_input' urandom urandom' u u' :
  let r := main agent store true chat_input urandom urandom' in
  let r' := main agent (store_of (state r)) false None u u' in
  rerun r = true
  ∧ messages (state r) = []
  ∧ thread_id (state r) = UUID.str (UUID.uuid4 urandom')
  ∧ (∀ w, shown w ∉ screen r)
  ∧ main agent' store true chat_input' urandom urandom' = r
  ∧ state r' = state r
  ∧ sidebar_caption ("메시지 수: " +:+ Py.str_of_int 0) ∈ screen r'
  ∧ (∀ w, shown w ∉ screen r').
Proof.
  cbv zeta.
  assert (messages (state (main agent store true chat_input urandom urandom')) = [])
    as Hempty by done.
  split; [done|]. split; [done|]. split; [done|]. split.
  { intros w Hin. simpl in Hin.
    repeat (apply elem_of_cons in Hin as [Hin|Hin]; [discriminate Hin|]).
    by apply elem_of_nil in Hin. }
  split; [done|].
  generalize dependent (state (main agent store true chat_input urandom urandom')).
  intros ss0 Hempty. unfold main. rewrite initialize_store_of. simpl.
  rewrite Hempty. simpl. split; [done|]. split.
  - do 7 right. left.
  - intros w Hin.
    repeat (apply elem_of_cons in Hin as [Hin|Hin]; [discriminate Hin|]).
    by apply elem_of_nil in Hin.
Qed.

(** X18: every run of the script keeps the transcript a sequence of whole
    response cycles: with or without an API key, whatever the widgets
    return, whatever the agent streams and whatever random bytes are drawn,
    a store whose messages are made of cycles is left with messages made of
    cycles. *)
Theorem script_keeps_cycles
    OPENAI_API_KEY agent store pressed chat_input urandom urandom' :
  store_cycles store →
  store_cycles
    (store_after (script OPENAI_API_KEY agent store pressed chat_input urandom urandom')).
Proof.
  intros Hstore. unfold script.
  destruct (from_option Py.truthy false OPENAI_API_KEY); [|done].
  unfold store_cycles, main in *. simpl.
  destruct pressed; simpl; [constructor|].
  assert (cycles (default [] (stored_messages store))) as Hcycles.
  { destruct (stored_messages store); [done | constructor]. }
  destruct chat_input as [user_input|]; [|done].
  destruct (Py.truthy user_input); [|done].
  pose proof (process_user_input_tail user_input agent
                (initialize_session_state store urandom)) as [_ (tail & Hafter & Htail)].
  destruct (process_user_input _ _ _) as [ss' page]. simpl in *. rewrite Hafter.
  destruct Htail as [->|(reply & names & Htruthy & ->)]; by constructor.
Qed.

Lemma script_keeps_cycles_witness :
  store_cycles blank_store
  ∧ store_cycles
      (store_after (script (Some "key") (scripted scenario) blank_store false
                      (Some "new question") 1 2)).
Proof.
  assert (store_cycles blank_store) as Hstore by exact I.
  split; [exact Hstore|].
  exact (script_keeps_cycles (Some "key") (scripted scenario) blank_store false
           (Some "new question") 1 2 Hstore).
Defined.

(** X19: the session identifier is stable until the button is pressed: a run
    of the script in which the button of the sidebar is not pressed leaves
    the identifier the store holds as it is, whatever else happens in the
    run, a response cycle and its exceptions included. *)
Theorem identifier_kept_without_reset
    OPENAI_API_KEY agent store chat_input urandom urandom' t :
  stored_thread_id store = Some t →
  stored_thread_id
    (store_after (script OPENAI_API_KEY agent store false chat_input urandom urandom'))
  = Some t.
Proof.
  intros Hid. unfold script.
  destruct (from_option Py.truthy false OPENAI_API_KEY); [|done].
  unfold main. simpl.
  assert (thread_id (initialize_session_state store urandom) = t) as Hinit.
  { simpl. by rewrite Hid. }
  destruct chat_input as [user_input|]; [|by rewrite <- Hinit].
  destruct (Py.truthy user_input); [|by rewrite <- Hinit].
  pose proof (process_user_input_tail user_input agent
                (initialize_session_state store urandom)) as [Hkept _].
  destruct (process_user_input _ _ _) as [ss' page]. simpl in *.
  by rewrite Hkept, Hid.
Qed.

Lemma identifier_kept_without_reset_witness :
  stored_thread_id (store_of session0) = Some (thread_id session0)
  ∧ stored_thread_id
      (store_after (script (Some "key") (scripted broken_scenario) (store_of session0)
                      false (Some "new question") 1 2))
    = Some (thread_id session0).
Proof.
  split; [reflexivity|].
  exact (identifier_kept_without_reset (Some "key") (scripted broken_scenario)
           (store_of session0) (Some "new question") 1 2 (thread_id session0)
           eq_refl).
Defined.

(** X20: the message count of the sidebar lags behind the store: in a run
    that processes an input, the count shown is the number of messages
    stored before the run, while the run leaves at least one message more. *)
Theorem message_count_lags agent store user_input urandom urandom' :
  Py.truthy user_input = true →
  sidebar_caption
    ("메시지 수: " +:+ Py.str_of_int (length (default [] (stored_messages store))))
    ∈ screen (main agent store false (Some user_input) urandom urandom')
  ∧ length (default [] (stored_messages store))
    < length (messages (state (main agent store false (Some user_input)
                                 urandom urandom'))).
Proof.
  intros Htruthy. unfold main. rewrite Htruthy.
  pose proof (process_user_input_tail user_input agent
                (initialize_session_state store urandom)) as [_ (tail & Hafter & _)].
  destruct (process_user_input _ _ _) as [ss' page]. simpl in *. split.
  - do 7 right. left.
  - rewrite Hafter, length_app. simpl. lia.
Qed.

Lemma message_count_lags_witness :
  Py.truthy "new question" = true
  ∧ sidebar_caption
      ("메시지 수: " +:+ Py.str_of_int (length (default [] (stored_messages
                                                           (store_of session0)))))
      ∈ screen (main (scripted scenario) (store_of session0) false
                  (Some "new question") 1 2)
  ∧ length (default [] (stored_messages (store_of session0)))
    < length (messages (state (main (scripted scenario) (store_of session0) false
                                 (Some "new question") 1 2))).
Proof.
  split; [reflexivity|].
  exact (message_count_lags (scripted scenario) (store_of session0) "new question"
           1 2 eq_refl).
Defined.
